(** * List editing: Enter / Backspace decision logic and the list-item walker

    A shallow embedding of [list/listediting] (the key handlers
    [getEnterHandlingCallback] and [getDeleteHandlingCallback] and the
    helpers [areRepresentingSameList], [isListBlock] and
    [findListBlocksInListItem]) over a document made of one ordered
    sequence of sibling blocks. *)

From Stdlib Require Import ZArith Lia Sorted Ascii.
From stdpp Require Import base option list gmap strings.

Local Open Scope string_scope.
Local Open Scope list_scope.
Local Open Scope nat_scope.

(** ** Data model *)

(** Attribute values stored on a model element.  The list feature writes
    strings ([listItemId], [listType]) and numbers ([listIndent]). *)
Inductive AttrValue : Type :=
  | AStr (s : string)
  | ANum (n : Z)
  | ABool (b : bool).

#[global] Instance AttrValue_eq_dec : EqDecision AttrValue.
Proof. solve_decision. Defined.

(** Modelled from the spec: the engine's model [Element] is not among the
    sources; the spec describes it as a node in an ordered sibling
    sequence with attribute get/set.  An element has a name, a bag of
    attributes and child nodes, of which only the count is needed
    ([isEmpty]). *)
Record Element : Type := mkElement {
  name : string;
  attrs : gmap string AttrValue;
  childCount : nat
}.

(** [element.getAttribute( key )]: the value, or [undefined] ([None]). *)
Definition getAttribute (key : string) (element : Element) : option AttrValue :=
  attrs element !! key.

(** [element.hasAttribute( key )]: whether the key is in the bag. *)
Definition hasAttribute (key : string) (element : Element) : bool :=
  bool_decide (is_Some (attrs element !! key)).

(** [element.isEmpty] *)
Definition isEmpty (element : Element) : bool := Nat.eqb (childCount element) 0.

(** JavaScript [===] on attribute values, [None] standing for [undefined]. *)
Definition strictEq (a b : option AttrValue) : bool := bool_decide (a = b).

(** A reference to a block: its index among the children of the root.  Two
    blocks with the same name and attributes are still different objects,
    so object identity ([===] on elements) is equality of references. *)
Abbreviation NodeRef := nat (only parsing).

(** A position inside a block: the block and the offset in it. *)
Record Position : Type := mkPosition {
  parent : NodeRef;
  offset : nat
}.

#[global] Instance Position_eq_dec : EqDecision Position.
Proof. solve_decision. Defined.

(** [position.isAtStart] *)
Definition isAtStart (position : Position) : bool := Nat.eqb (offset position) 0.

(** The document selection: one range. *)
Record Selection : Type := mkSelection {
  getFirstPosition : Position;
  getLastPosition : Position
}.

(** [selection.isCollapsed] *)
Definition isCollapsed (selection : Selection) : bool :=
  bool_decide (getFirstPosition selection = getLastPosition selection).

(** [node.previousSibling]: [null] for the first child. *)
Definition previousSibling (node : NodeRef) : option NodeRef :=
  match node with
  | O => None
  | S k => Some k
  end.

(** ** List identity resolver *)

(** [areRepresentingSameList( blockA, blockB )].  The arguments may be
    [null] ([None]); the result is [None] when the call throws, which is
    the case for a [null] [blockA] next to a non-null [blockB]. *)
Definition areRepresentingSameList (blockA blockB : option Element) : option bool :=
  match blockB with
  | None => Some false
  | Some b =>
      match blockA with
      | None => None
      | Some a => Some (strictEq (getAttribute "listItemId" a) (getAttribute "listItemId" b))
      end
  end.

(** [isListBlock( element )] *)
Definition isListBlock (element : Element) : bool :=
  hasAttribute "listItemId" element.

(** ** Block sequence walker *)

Inductive Direction : Type := backward | forward.

#[global] Instance Direction_eq_dec : EqDecision Direction.
Proof. solve_decision. Defined.

(** Modelled from the spec: the engine's [TreeWalker] is not among the
    sources.  With the options used here (shallow, element ends ignored,
    no boundaries) it is a one-directional scan over the immediate
    siblings starting at the position: walking backward it leaves the
    block holding the position through its start, yielding that block and
    then each earlier sibling; walking forward it yields each later
    sibling.  It runs to the end of the root: the walker knows nothing of
    list attributes.  Every value it yields here is an element. *)
Definition TreeWalker (root : list Element) (startPosition : Position)
    (direction : Direction) : list NodeRef :=
  match direction with
  | backward => reverse (seq 0 (S (parent startPosition)))
  | forward => seq (S (parent startPosition)) (length root - S (parent startPosition))
  end.

(** The last filter of [getSimilarListItem]:
    [element.getAttribute( 'listItemId' ) === listItemId]. *)
Definition hasListItemId (root : list Element) (listItemId : option AttrValue)
    (element : NodeRef) : bool :=
  match root !! element with
  | Some el => strictEq (getAttribute "listItemId" el) listItemId
  | None => false
  end.

(** The inner function [getSimilarListItem( direction )]. *)
Definition getSimilarListItem (root : list Element) (position : Position)
    (listItemId : option AttrValue) (direction : Direction) : list NodeRef :=
  List.filter (hasListItemId root listItemId) (TreeWalker root position direction).

(** [findListBlocksInListItem( position )]; [None] when [position.parent]
    does not exist. *)
Definition findListBlocksInListItem (root : list Element) (position : Position)
    : option (list NodeRef) :=
  match root !! parent position with
  | None => None
  | Some positionParent =>
      let listItemId := getAttribute "listItemId" positionParent in
      Some (reverse (getSimilarListItem root position listItemId backward)
            ++ getSimilarListItem root position listItemId forward)
  end.

(** ** The editor: document, selection, writer and commands *)

Record Editor : Type := mkEditor {
  docRoot : list Element;
  docSelection : Selection
}.

(** What a key handler does to the outside world, in the order it does it. *)
Inductive Effect : Type :=
  | SetAttribute (key : string) (value : AttrValue) (item : NodeRef)
  | Execute (commandName : string)
  | PreventDefault
  | Stop.

#[global] Instance Effect_eq_dec : EqDecision Effect.
Proof. solve_decision. Defined.

Definition withAttribute (key : string) (value : AttrValue) (element : Element) : Element :=
  {| name := name element;
     attrs := <[key := value]> (attrs element);
     childCount := childCount element |}.

Definition withoutAttribute (key : string) (element : Element) : Element :=
  {| name := name element;
     attrs := delete key (attrs element);
     childCount := childCount element |}.

(** [writer.setAttribute( key, value, item )] *)
Definition writer_setAttribute (key : string) (value : AttrValue) (item : NodeRef)
    (editor : Editor) : Editor :=
  {| docRoot := alter (withAttribute key value) item (docRoot editor);
     docSelection := docSelection editor |}.

(** [writer.removeAttribute( key, item )] *)
Definition writer_removeAttribute (key : string) (item : NodeRef)
    (editor : Editor) : Editor :=
  {| docRoot := alter (withoutAttribute key) item (docRoot editor);
     docSelection := docSelection editor |}.

(** The nesting depth stored on a block; a block without a numeric
    [listIndent] is read as depth 0. *)
Definition listIndentOf (element : Element) : Z :=
  match getAttribute "listIndent" element with
  | Some (ANum n) => n
  | _ => 0%Z
  end.

(** Modelled from the spec: the indent command ([./indentcommand] is not
    among the sources).  It is enabled only when the selection's block is
    a list block; a command that is not enabled changes nothing.  Forward:
    [listIndent] of the selected block goes up by one, subject to a
    maximum of the previous sibling's indent plus one; an attempt past
    that cap is not applied.  The cap exists where a previous sibling
    does.  Backward: [listIndent] goes down by one; if the result would
    go below zero the block instead loses [listItemId], [listIndent] and
    [listType].  The policy-dependent treatment of following same-item
    siblings and the recomputation of identities are left out. *)
Definition IndentCommand_execute (direction : Direction) (editor : Editor) : Editor :=
  let item := parent (getFirstPosition (docSelection editor)) in
  match docRoot editor !! item with
  | None => editor
  | Some block =>
      if negb (isListBlock block) then editor
      else
        match direction with
        | forward =>
            let indent := (listIndentOf block + 1)%Z in
            let withinCap :=
              match previousSibling item ≫= (λ p, docRoot editor !! p) with
              | Some previous => (indent <=? listIndentOf previous + 1)%Z
              | None => true
              end in
            if withinCap
            then writer_setAttribute "listIndent" (ANum indent) item editor
            else editor
        | backward =>
            let indent := (listIndentOf block - 1)%Z in
            if (indent <? 0)%Z
            then writer_removeAttribute "listType" item
                   (writer_removeAttribute "listIndent" item
                      (writer_removeAttribute "listItemId" item editor))
            else writer_setAttribute "listIndent" (ANum indent) item editor
        end
  end.

(** [editor.execute( commandName )] for the two indent commands registered
    in [init]; [None] for any other name (the list commands are not
    modelled, and an unknown command throws). *)
Definition execute (commandName : string) (editor : Editor) : option Editor :=
  if bool_decide (commandName = "indentList") then Some (IndentCommand_execute forward editor)
  else if bool_decide (commandName = "outdentList") then Some (IndentCommand_execute backward editor)
  else None.

(** ** Key handlers *)

(** The callback returned by [getEnterHandlingCallback( editor )], run on
    one [enter] event.  [uniqueId] is what [listUtils._getElementUniqueId()]
    returns when it is called.  The result is the editor after the event
    and the effects performed; [None] when [position.parent] does not
    exist. *)
Definition getEnterHandlingCallback (uniqueId : string) (editor : Editor)
    : option (Editor * list Effect) :=
  let position := getLastPosition (docSelection editor) in
  match docRoot editor !! parent position with
  | None => None
  | Some positionParent =>
      if negb (isCollapsed (docSelection editor)) then Some (editor, [])
      else if negb (isEmpty positionParent) then Some (editor, [])
      else if negb (isListBlock positionParent) then Some (editor, [])
      else
        allBlockItems ← findListBlocksInListItem (docRoot editor) position;
        let lastBlockItem := last allBlockItems in
        sameList ← areRepresentingSameList (Some positionParent)
                     (previousSibling (parent position) ≫= (λ p, docRoot editor !! p));
        '(editor', effects, applied) ←
          (if sameList && bool_decide (lastBlockItem = Some (parent position))
           then Some (writer_setAttribute "listItemId" (AStr uniqueId) (parent position) editor,
                      [SetAttribute "listItemId" (AStr uniqueId) (parent position)],
                      true)
           else if Nat.eqb (length allBlockItems) 1
           then editor' ← execute "outdentList" editor;
                Some (editor', [Execute "outdentList"], true)
           else Some (editor, [], false));
        Some (editor', if applied : bool then effects ++ [PreventDefault; Stop] else effects)
  end.

(** The callback returned by [getDeleteHandlingCallback( editor )], run on
    one [delete] event whose data carries [direction]. *)
Definition getDeleteHandlingCallback (direction : Direction) (editor : Editor)
    : option (Editor * list Effect) :=
  if negb (bool_decide (direction = backward)) then Some (editor, [])
  else
    let selection := docSelection editor in
    if negb (isCollapsed selection) then Some (editor, [])
    else
      let firstPosition := getFirstPosition selection in
      if negb (isAtStart firstPosition) then Some (editor, [])
      else
        match docRoot editor !! parent firstPosition with
        | None => None
        | Some positionParent =>
            if negb (bool_decide (name positionParent = "listItem")) then Some (editor, [])
            else
              let previousIsAListItem :=
                match previousSibling (parent firstPosition) ≫= (λ p, docRoot editor !! p) with
                | Some previous => bool_decide (name previous = "listItem")
                | None => false
                end in
              if previousIsAListItem then Some (editor, [])
              else
                editor' ← execute "outdentList" editor;
                Some (editor', [Execute "outdentList"; PreventDefault; Stop])
        end.

(** ** The walker as the specification words it *)

(** A scan that stops at the first value failing the test. *)
Fixpoint scanWhile {A : Type} (test : A → bool) (l : list A) : list A :=
  match l with
  | [] => []
  | x :: rest => if test x then x :: scanWhile test rest else []
  end.

(** [findItemBlocks] in the words of the specification: two
    one-directional scans over the siblings from the position's block,
    each stopping at the first sibling whose [listItemId] is not that of
    the block, joined as reverse(backward run) + forward run. *)
Definition findItemBlocks_spec (root : list Element) (position : Position)
    : option (list NodeRef) :=
  match root !! parent position with
  | None => None
  | Some positionParent =>
      let listItemId := getAttribute "listItemId" positionParent in
      Some (reverse (scanWhile (hasListItemId root listItemId)
                       (TreeWalker root position backward))
            ++ scanWhile (hasListItemId root listItemId)
                 (TreeWalker root position forward))
  end.

(** The blocks carrying [listItemId] form one run of neighbours. *)
Definition contiguousItem (root : list Element) (listItemId : option AttrValue) : Prop :=
  ∀ j k l : NodeRef, j ≤ k → k ≤ l →
    hasListItemId root listItemId j = true →
    hasListItemId root listItemId l = true →
    hasListItemId root listItemId k = true.

(** ** Sample documents *)

Definition listAttributes (listItemId : string) (listIndent : Z) : gmap string AttrValue :=
  <["listItemId" := AStr listItemId]>
    (<["listIndent" := ANum listIndent]>
       (<["listType" := AStr "bulleted"]> ∅)).

(** A paragraph that belongs to a list item. *)
Definition listParagraph (listItemId : string) (listIndent : Z) (children : nat) : Element :=
  mkElement "paragraph" (listAttributes listItemId listIndent) children.

(** A paragraph outside any list. *)
Definition plainParagraph (children : nat) : Element :=
  mkElement "paragraph" ∅ children.

(** An element of the legacy list model: named [listItem], no identity. *)
Definition legacyListItem (listIndent : Z) (children : nat) : Element :=
  mkElement "listItem"
    (<["listIndent" := ANum listIndent]> (<["listType" := AStr "bulleted"]> ∅)) children.

Definition caretAt (block : NodeRef) (at_offset : nat) : Selection :=
  mkSelection (mkPosition block at_offset) (mkPosition block at_offset).

(** ** Preconditions of the decision table *)

(** A block is plain when it carries none of the list attributes. *)
Definition isPlainBlock (element : Element) : Prop :=
  getAttribute "listItemId" element = None ∧
  getAttribute "listIndent" element = None ∧
  getAttribute "listType" element = None.

(** The preconditions of the first Enter row of the decision table. *)
Definition freshIdentityConditions (editor : Editor) (P : Element) : Prop :=
  let position := getLastPosition (docSelection editor) in
  isCollapsed (docSelection editor) = true ∧
  isEmpty P = true ∧
  isListBlock P = true ∧
  (∃ items, findListBlocksInListItem (docRoot editor) position = Some items ∧
            last items = Some (parent position)) ∧
  areRepresentingSameList (Some P)
    (previousSibling (parent position) ≫= (λ p, docRoot editor !! p)) = Some true.

(** The generator's contract: the token is carried by no block yet. *)
Definition freshFor (uniqueId : string) (root : list Element) : Prop :=
  ∀ el, el ∈ root → getAttribute "listItemId" el ≠ Some (AStr uniqueId).

(** The preconditions the code tests before it outdents on Backspace. *)
Definition backspaceConditions (direction : Direction) (editor : Editor) (P : Element) : Prop :=
  let firstPosition := getFirstPosition (docSelection editor) in
  direction = backward ∧
  isCollapsed (docSelection editor) = true ∧
  isAtStart firstPosition = true ∧
  name P = "listItem" ∧
  ∀ previous,
    previousSibling (parent firstPosition) ≫= (λ p, docRoot editor !! p) = Some previous →
    name previous ≠ "listItem".

(** The effects of the Backspace handler, computed from the selection and
    the element names alone. *)
Definition deleteEffectsByName (direction : Direction) (selection : Selection)
    (names : list string) : option (list Effect) :=
  if negb (bool_decide (direction = backward)) then Some []
  else if negb (isCollapsed selection) then Some []
  else if negb (isAtStart (getFirstPosition selection)) then Some []
  else
    match names !! parent (getFirstPosition selection) with
    | None => None
    | Some positionParentName =>
        if negb (bool_decide (positionParentName = "listItem")) then Some []
        else
          match previousSibling (parent (getFirstPosition selection)) ≫= (λ p, names !! p) with
          | Some previousName =>
              if bool_decide (previousName = "listItem") then Some []
              else Some [Execute "outdentList"; PreventDefault; Stop]
          | None => Some [Execute "outdentList"; PreventDefault; Stop]
          end
    end.

(** ** Sample editors *)

(** A three-block item between a plain paragraph and another item. *)
Definition threeBlockItem : list Element :=
  [plainParagraph 2; listParagraph "A" 0 1; listParagraph "A" 0 3;
   listParagraph "A" 0 0; listParagraph "B" 0 1].

(** Two blocks of one identity with a block of another between them. *)
Definition interleavedItems : list Element :=
  [listParagraph "A" 0 1; listParagraph "B" 0 1; listParagraph "A" 0 0].

(** The caret in the empty last block of a two-block item. *)
Definition itemWithEmptyLastBlock : Editor :=
  mkEditor [listParagraph "A" 0 1; listParagraph "A" 0 0] (caretAt 1 0).

(** The caret in the only, empty block of the only item. *)
Definition singleEmptyItem : Editor :=
  mkEditor [listParagraph "A" 0 0] (caretAt 0 0).

(** The caret at the start of a [listItem] that follows a [listItem]. *)
Definition taggedListItems : Editor :=
  mkEditor [legacyListItem 0 2; mkElement "listItem" (listAttributes "B" 0) 1] (caretAt 1 0).

(** The caret at the start of the first of two paragraphs of item A. *)
Definition documentListFirstItem : Editor :=
  mkEditor [listParagraph "A" 0 1; listParagraph "A" 0 1] (caretAt 0 0).

(** The caret at the start of a lone [listItem] without identity. *)
Definition legacyFirstItem : Editor :=
  mkEditor [legacyListItem 0 1] (caretAt 0 0).

(** The caret in a block at indent 1 whose previous sibling is at indent 1. *)
Definition nestedSecondBlock : Editor :=
  mkEditor [listParagraph "A" 1 1; listParagraph "B" 1 1] (caretAt 1 0).

(** ** View list items *)

(** A node of the view tree: a text node or an element with its children. *)
#[warnings="-register-all"]
Inductive ViewNode : Type :=
  | ViewText (data : string)
  | ViewElement (viewName : string) (viewChildren : list ViewNode).

(** [child.name == 'ul' || child.name == 'ol'] *)
Definition isListName (viewName : string) : bool :=
  bool_decide (viewName = "ul") || bool_decide (viewName = "ol").

Section ViewLoops.
Variable lengthOf : ViewNode → option nat.

(** The inner loop of [getViewListItemLength]:
    [for ( const item of child.getChildren() ) length += lengthOf( item )]. *)
Fixpoint addItemLengths (items : list ViewNode) (length : nat) : option nat :=
  match items with
  | [] => Some length
  | item :: more =>
      match lengthOf item with
      | Some itemLength => addItemLengths more (length + itemLength)
      | None => None
      end
  end.

(** The outer loop of [getViewListItemLength], over [element.getChildren()].
    A text node has no [name], so it is never a list. *)
Fixpoint addChildLengths (children : list ViewNode) (length : nat) : option nat :=
  match children with
  | [] => Some length
  | ViewElement childName items :: rest =>
      if isListName childName
      then match addItemLengths items length with
           | Some length' => addChildLengths rest length'
           | None => None
           end
      else addChildLengths rest length
  | ViewText _ :: rest => addChildLengths rest length
  end.
End ViewLoops.

(** [getViewListItemLength( element )]; [None] when the call throws: a text
    node has no [getChildren]. *)
Fixpoint getViewListItemLength (element : ViewNode) : option nat :=
  match element with
  | ViewText _ => None
  | ViewElement _ children => addChildLengths getViewListItemLength children 1
  end.

(** Whether a child is a nested list. *)
Definition isListElement (child : ViewNode) : bool :=
  match child with
  | ViewElement childName _ => isListName childName
  | ViewText _ => false
  end.

(** The element and, in document order, every item of the lists nested in
    it at any depth, going down through lists and their items only. *)
Fixpoint viewListItems (element : ViewNode) : list ViewNode :=
  element ::
  match element with
  | ViewText _ => []
  | ViewElement _ children =>
      flat_map (λ child,
                  match child with
                  | ViewElement childName items =>
                      if isListName childName then flat_map viewListItems items else []
                  | ViewText _ => []
                  end) children
  end.

(** Every list reached from the element, through lists and their items
    only, holds elements and no text. *)
Fixpoint listsHoldElements (element : ViewNode) : bool :=
  match element with
  | ViewText _ => false
  | ViewElement _ children =>
      forallb (λ child,
                 match child with
                 | ViewElement childName items =>
                     if isListName childName then forallb listsHoldElements items else true
                 | ViewText _ => true
                 end) children
  end.

(** ** Schema *)

(** A compiled schema definition, as far as [getBlockDefinitions] reads it. *)
Record SchemaDefinition : Type := mkSchemaDefinition {
  definitionName : string;
  isBlock : bool
}.

(** [getBlockDefinitions( schema )], on the values of
    [schema.getDefinitions()] in their order. *)
Definition getBlockDefinitions (definitions : list SchemaDefinition)
    : list SchemaDefinition :=
  List.filter
    (λ definition, negb (String.prefix "$" (definitionName definition))
                   && isBlock definition)
    definitions.

(** What [afterInit] asks of the schema and of the command collection. *)
Inductive InitEffect : Type :=
  | SchemaExtend (itemName : string) (allowAttributes : list string)
  | RegisterChildCommand (parentCommand childCommand : string).

(** [afterInit()]: the block definitions are collected once, then each is
    extended; [hasCommand] tells whether [commands.get( name )] finds a
    command. *)
Definition afterInit (definitions : list SchemaDefinition) (hasCommand : string → bool)
    : list InitEffect :=
  map (λ definition,
         SchemaExtend (definitionName definition) ["listType"; "listIndent"; "listItemId"])
      (getBlockDefinitions definitions)
  ++ (if hasCommand "indent" then [RegisterChildCommand "indent" "indentList"] else [])
  ++ (if hasCommand "outdent" then [RegisterChildCommand "outdent" "outdentList"] else []).

(** The schema extensions [afterInit] asks for, in order. *)
Definition extendedItems (effects : list InitEffect) : list (string * list string) :=
  omap (λ effect,
          match effect with
          | SchemaExtend itemName allowAttributes => Some (itemName, allowAttributes)
          | RegisterChildCommand _ _ => None
          end) effects.

(** The child commands [afterInit] registers, in order. *)
Definition registeredChildCommands (effects : list InitEffect) : list (string * string) :=
  omap (λ effect,
          match effect with
          | SchemaExtend _ _ => None
          | RegisterChildCommand parentCommand childCommand =>
              Some (parentCommand, childCommand)
          end) effects.

(** A nested list of three items, the second holding a list of its own. *)
Definition nestedViewItem : ViewNode :=
  ViewElement "li"
    [ViewText "a";
     ViewElement "ul"
       [ViewElement "li" [ViewText "b"];
        ViewElement "li" [ViewText "c"; ViewElement "ol" [ViewElement "li" []]];
        ViewElement "li" []];
     ViewElement "span" [ViewElement "ul" [ViewText "x"]]].

(** ** Facts about lists used by the walker *)

(** Closes the goal of a handler branch that applies no action. *)
Ltac no_action := eexists _, _; split; [reflexivity | left; split; reflexivity].

Section ListFacts.
Context {A : Type}.
Implicit Types (test : A → bool) (l : list A).

Lemma filter_reverse_bool test l :
  List.filter test (reverse l) = reverse (List.filter test l).
Proof.
  induction l as [|x l IH]; [done|].
  rewrite reverse_cons, List.filter_app, IH. simpl.
  destruct (test x); [by rewrite reverse_cons | by rewrite app_nil_r].
Qed.

Lemma filter_none test l :
  (∀ x, x ∈ l → test x = false) → List.filter test l = [].
Proof.
  induction l as [|x l IH]; intros Hall; [done|]. simpl.
  rewrite (Hall x) by apply list_elem_of_here.
  apply IH. intros y Hy. apply Hall. by apply list_elem_of_further.
Qed.

Lemma filter_all test l :
  (∀ x, x ∈ l → test x = true) → List.filter test l = l.
Proof.
  induction l as [|x l IH]; intros Hall; [done|]. simpl.
  rewrite (Hall x) by apply list_elem_of_here.
  f_equal. apply IH. intros y Hy. apply Hall. by apply list_elem_of_further.
Qed.

(** A scan that stops early loses nothing when no value after the first
    failure passes the test. *)
Lemma scanWhile_filter test l :
  (∀ l1 x l2, l = l1 ++ x :: l2 → test x = false →
              ∀ y, y ∈ l2 → test y = false) →
  scanWhile test l = List.filter test l.
Proof.
  induction l as [|x l IH]; intros Hclosed; [done|]. simpl.
  destruct (test x) eqn:Hx.
  - f_equal. apply IH. intros l1 z l2 -> Hz y Hy.
    by apply (Hclosed (x :: l1) z l2).
  - symmetry. apply filter_none. intros y Hy.
    by apply (Hclosed [] x l).
Qed.
End ListFacts.

(** Where a value sits in [seq] orders it against the values around it. *)
Lemma seq_split_order (a n : nat) (u v : list nat) (x : nat) :
  seq a n = u ++ x :: v →
  (∀ y, y ∈ u → y < x) ∧ (∀ y, y ∈ v → x < y) ∧ a ≤ x < a + n.
Proof.
  revert a n. induction u as [|z u IH]; intros a n Hseq.
  - destruct n as [|n]; [done|]. simpl in Hseq.
    injection Hseq as <- <-. split; [|split].
    + intros y Hy. by apply elem_of_nil in Hy.
    + intros y Hy. apply elem_of_seq in Hy. lia.
    + lia.
  - destruct n as [|n]; [done|]. simpl in Hseq.
    injection Hseq as <- Hrest.
    destruct (IH _ _ Hrest) as (Hu & Hv & Hx). split; [|split].
    + intros y Hy. apply elem_of_cons in Hy as [->|Hy]; [lia | by apply Hu].
    + done.
    + lia.
Qed.

(** ** The walker *)

Lemma hasListItemId_self (root : list Element) (i : NodeRef) (P : Element) :
  root !! i = Some P →
  hasListItemId root (getAttribute "listItemId" P) i = true.
Proof.
  intros HP. unfold hasListItemId, strictEq. rewrite HP.
  by apply bool_decide_eq_true.
Qed.

Lemma hasListItemId_true (root : list Element) (listItemId : option AttrValue) (i : NodeRef) :
  hasListItemId root listItemId i = true ↔
  ∃ el, root !! i = Some el ∧ getAttribute "listItemId" el = listItemId.
Proof.
  unfold hasListItemId, strictEq. destruct (root !! i) as [el|].
  - rewrite bool_decide_eq_true. split.
    + intros Hid. by exists el.
    + by intros (el' & [= <-] & Hid).
  - split; [done|]. by intros (el & Hel & _).
Qed.

(** Both scans together visit every sibling once, in document order. *)
Lemma walk_covers_root (root : list Element) (position : Position) :
  parent position < length root →
  reverse (TreeWalker root position backward) ++ TreeWalker root position forward
  = seq 0 (length root).
Proof.
  intros Hlt. unfold TreeWalker. rewrite reverse_involutive.
  replace (length root) with (S (parent position) + (length root - S (parent position)))
    at 2 by lia.
  by rewrite seq_app.
Qed.

(** The code keeps every sibling with the identity of the cursor block,
    wherever it is in the root. *)
Lemma findListBlocksInListItem_filter (root : list Element) (position : Position)
    (P : Element) :
  root !! parent position = Some P →
  findListBlocksInListItem root position
  = Some (List.filter (hasListItemId root (getAttribute "listItemId" P))
            (seq 0 (length root))).
Proof.
  intros HP. unfold findListBlocksInListItem, getSimilarListItem. rewrite HP.
  f_equal. rewrite <- filter_reverse_bool, <- List.filter_app.
  f_equal. apply walk_covers_root. by eapply lookup_lt_Some.
Qed.

Lemma findListBlocksInListItem_elem (root : list Element) (position : Position)
    (P : Element) (items : list NodeRef) (i : NodeRef) :
  root !! parent position = Some P →
  findListBlocksInListItem root position = Some items →
  i ∈ items ↔ hasListItemId root (getAttribute "listItemId" P) i = true.
Proof.
  intros HP. rewrite (findListBlocksInListItem_filter _ _ _ HP).
  intros [= <-]. rewrite list_elem_of_In, List.filter_In, <- list_elem_of_In, elem_of_seq.
  split; [by intros [_ Hi]|]. intros Hi. split; [|done].
  apply hasListItemId_true in Hi as (el & Hel & _).
  apply lookup_lt_Some in Hel. lia.
Qed.

(** On a contiguous item the stopping scans of the specification find the
    same blocks as the code. *)
Lemma findItemBlocks_spec_contiguous (root : list Element) (position : Position)
    (P : Element) :
  root !! parent position = Some P →
  contiguousItem root (getAttribute "listItemId" P) →
  findItemBlocks_spec root position = findListBlocksInListItem root position.
Proof.
  intros HP Hcont. unfold findItemBlocks_spec, findListBlocksInListItem, getSimilarListItem.
  rewrite HP. cbv zeta. pose proof (hasListItemId_self _ _ _ HP) as Hself.
  f_equal. f_equal; [f_equal|]; apply scanWhile_filter; unfold TreeWalker.
  - intros l1 x l2 Hsplit Hx y Hy.
    apply (f_equal reverse) in Hsplit.
    rewrite reverse_involutive, reverse_app, reverse_cons, <- app_assoc in Hsplit.
    change ([x] ++ reverse l1) with (x :: reverse l1) in Hsplit.
    apply seq_split_order in Hsplit as (Hbefore & _ & Hrange).
    assert (y < x) by (apply Hbefore; by apply elem_of_reverse).
    destruct (hasListItemId root (getAttribute "listItemId" P) y) eqn:Hyid; [|done].
    rewrite <- Hx. symmetry.
    apply (Hcont y x (parent position)); [lia | lia | done | done].
  - intros l1 x l2 Hsplit Hx y Hy.
    apply seq_split_order in Hsplit as (_ & Hafter & Hrange).
    assert (x < y) by by apply Hafter.
    destruct (hasListItemId root (getAttribute "listItemId" P) y) eqn:Hyid; [|done].
    rewrite <- Hx. symmetry.
    apply (Hcont (parent position) x y); [lia | lia | done | done].
Qed.

(** The cursor block is the last one the walker returns exactly when no
    later sibling carries its identity. *)
Lemma findListBlocksInListItem_last (root : list Element) (position : Position)
    (P : Element) (items : list NodeRef) :
  root !! parent position = Some P →
  findListBlocksInListItem root position = Some items →
  last items = Some (parent position) ↔
  ∀ j, parent position < j →
       hasListItemId root (getAttribute "listItemId" P) j = false.
Proof.
  intros HP. rewrite (findListBlocksInListItem_filter _ _ _ HP). intros [= <-].
  pose proof (lookup_lt_Some _ _ _ HP) as Hlt.
  pose proof (hasListItemId_self _ _ _ HP) as Hself.
  set (test := hasListItemId root (getAttribute "listItemId" P)) in *.
  replace (length root) with (S (parent position) + (length root - S (parent position)))
    by lia.
  rewrite seq_app, List.filter_app, seq_S, List.filter_app. simpl.
  rewrite Hself, last_app. split.
  - intros Hlast j Hj.
    destruct (test j) eqn:Hid; [|done]. exfalso.
    destruct (last (List.filter test (seq _ _))) as [y|] eqn:Hy.
    + injection Hlast as ->. apply last_Some in Hy as [l' Hy].
      assert (parent position ∈ List.filter test
                (seq (S (parent position)) (length root - S (parent position)))) as Hin.
      { rewrite Hy. apply elem_of_app. right. apply list_elem_of_here. }
      apply list_elem_of_In, List.filter_In in Hin as [Hin _].
      apply list_elem_of_In, elem_of_seq in Hin. lia.
    + apply last_None in Hy.
      assert (j ∈ List.filter test
                (seq (S (parent position)) (length root - S (parent position)))) as Hin.
      { apply list_elem_of_In, List.filter_In. split; [|done].
        apply list_elem_of_In, elem_of_seq.
        apply hasListItemId_true in Hid as (el & Hel & _).
        apply lookup_lt_Some in Hel. lia. }
      rewrite Hy in Hin. by apply elem_of_nil in Hin.
  - intros Hlater. rewrite filter_none.
    + simpl. by rewrite last_snoc.
    + intros j Hj. apply elem_of_seq in Hj. apply Hlater. lia.
Qed.

(** An item of three blocks, found from any of the three. *)
Lemma findListBlocksInListItem_three (before after : list Element) (b1 b2 b3 : Element)
    (listItemId : option AttrValue) (position : Position) :
  getAttribute "listItemId" b1 = listItemId →
  getAttribute "listItemId" b2 = listItemId →
  getAttribute "listItemId" b3 = listItemId →
  (∀ el, el ∈ before ++ after → getAttribute "listItemId" el ≠ listItemId) →
  length before ≤ parent position < length before + 3 →
  findListBlocksInListItem (before ++ [b1; b2; b3] ++ after) position
  = Some [length before; length before + 1; length before + 2].
Proof.
  intros H1 H2 H3 Hother Hpos.
  set (root := before ++ [b1; b2; b3] ++ after).
  assert (Hin : ∀ k, k < 3 →
            ∃ el, root !! (length before + k) = Some el ∧
                  getAttribute "listItemId" el = listItemId).
  { intros k Hk. unfold root. rewrite lookup_app_r by lia.
    replace (length before + k - length before) with k by lia.
    destruct k as [|[|[|k]]]; [by eexists.. | lia]. }
  destruct (Hin (parent position - length before)) as (P & HP & HPid); [lia|].
  replace (length before + (parent position - length before))
    with (parent position) in HP by lia.
  rewrite (findListBlocksInListItem_filter _ _ _ HP), HPid. f_equal.
  replace (length root) with (length before + (3 + length after))
    by (unfold root; rewrite !length_app; simpl; lia).
  rewrite seq_app, seq_app, !List.filter_app. simpl seq.
  rewrite (filter_none _ (seq 0 (length before))),
          (filter_none _ (seq (0 + length before + 3) (length after))),
          (filter_all _ [_; _; _]).
  - simpl. do 3 f_equal; [lia | f_equal; lia].
  - intros x Hx. apply hasListItemId_true.
    assert (x = length before + 0 ∨ x = length before + 1 ∨ x = length before + 2)
      as [-> | [-> | ->]].
    { rewrite !elem_of_cons in Hx. rewrite elem_of_nil in Hx. lia. }
    all: apply Hin; lia.
  - intros x Hx. apply elem_of_seq in Hx.
    destruct (hasListItemId root listItemId x) eqn:Hid; [|done].
    apply hasListItemId_true in Hid as (el & Hel & Hid).
    unfold root in Hel. rewrite lookup_app_r in Hel by lia.
    rewrite lookup_app_r in Hel by (simpl; lia).
    exfalso. apply (Hother el); [|done].
    apply elem_of_app. right. by eapply list_elem_of_lookup_2.
  - intros x Hx. apply elem_of_seq in Hx.
    destruct (hasListItemId root listItemId x) eqn:Hid; [|done].
    apply hasListItemId_true in Hid as (el & Hel & Hid).
    unfold root in Hel. rewrite lookup_app_l in Hel by lia.
    exfalso. apply (Hother el); [|done].
    apply elem_of_app. left. by eapply list_elem_of_lookup_2.
Qed.

(** Where the blocks of an identity are not neighbours the code and the
    stopping scans part: with the blocks [A, B, A] and the cursor in the
    last one, the scan that stops at the first differing sibling gives the
    last block alone, while the code returns the first and the last. *)
Lemma findListBlocksInListItem_not_stopping :
  is_Some (interleavedItems !! 2 ≫= getAttribute "listItemId") ∧
  findItemBlocks_spec interleavedItems (mkPosition 2 0) = Some [2] ∧
  findListBlocksInListItem interleavedItems (mkPosition 2 0) = Some [0; 2] ∧
  findListBlocksInListItem interleavedItems (mkPosition 2 0)
    ≠ findItemBlocks_spec interleavedItems (mkPosition 2 0).
Proof.
  split; [by eexists|]. split; [reflexivity|]. split; [reflexivity|].
  vm_compute. discriminate.
Qed.

(** The values of [seq] that pass a test are consecutive when the test
    has no gap. *)
Lemma filter_seq_contiguous (test : nat → bool) (a n : nat) :
  (∀ j k l, j ≤ k → k ≤ l → test j = true → test l = true → test k = true) →
  ∃ first, List.filter test (seq a n) = seq first (length (List.filter test (seq a n))).
Proof.
  intros Hgap. revert a. induction n as [|n IH]; intros a; [by exists 0|]. simpl.
  destruct (IH (S a)) as [first Hrest].
  destruct (test a) eqn:Ha; [|by exists first].
  exists a. simpl. f_equal.
  destruct (List.filter test (seq (S a) n)) as [|b rest] eqn:Hfilter; [done|].
  simpl in Hrest. injection Hrest as <- Hrest.
  assert (Hin : b ∈ List.filter test (seq (S a) n)).
  { rewrite Hfilter. apply list_elem_of_here. }
  apply list_elem_of_In, List.filter_In in Hin as [Hin Hbtest].
  apply list_elem_of_In, elem_of_seq in Hin.
  assert (Hnext : S a ∈ List.filter test (seq (S a) n)).
  { apply list_elem_of_In, List.filter_In. split.
    - apply list_elem_of_In, elem_of_seq. lia.
    - apply (Hgap a (S a) b); [lia | lia | done | done]. }
  rewrite Hfilter, Hrest in Hnext.
  change (b :: seq (S b) (length rest)) with (seq b (S (length rest))) in Hnext.
  apply elem_of_seq in Hnext.
  assert (b = S a) as -> by lia.
  simpl. f_equal. exact Hrest.
Qed.

(** C4.  For a cursor position inside a block [P] that carries a
    [listItemId], in a root where the blocks of that identity are
    contiguous (the invariant the walker assumes),
    [findListBlocksInListItem] returns exactly the blocks of the two
    one-directional scans from [P], backward then forward, each stopping
    at the first sibling whose [listItemId] is not [P]'s, joined as
    reverse(backward run) + forward run: the run of consecutive siblings
    of [P]'s identity, in document order, [P] included.  In particular
    for an item [b1, b2, b3] it is [b1, b2, b3] from any of the three. *)
Theorem findListBlocksInListItem_contiguous_run
    (root : list Element) (position : Position) (P : Element) :
  root !! parent position = Some P →
  is_Some (getAttribute "listItemId" P) →
  contiguousItem root (getAttribute "listItemId" P) →
  ∃ items : list NodeRef,
    findListBlocksInListItem root position = Some items ∧
    findItemBlocks_spec root position = Some items ∧
    items = reverse (scanWhile (hasListItemId root (getAttribute "listItemId" P))
                       (TreeWalker root position backward))
            ++ scanWhile (hasListItemId root (getAttribute "listItemId" P))
                 (TreeWalker root position forward) ∧
    parent position ∈ items ∧
    (∃ first, items = seq first (length items)) ∧
    (∀ j, j ∈ items ↔
          ∃ el, root !! j = Some el ∧
                getAttribute "listItemId" el = getAttribute "listItemId" P) ∧
    (∀ before after b1 b2 b3,
       root = before ++ [b1; b2; b3] ++ after →
       length before ≤ parent position < length before + 3 →
       getAttribute "listItemId" b1 = getAttribute "listItemId" P →
       getAttribute "listItemId" b2 = getAttribute "listItemId" P →
       getAttribute "listItemId" b3 = getAttribute "listItemId" P →
       (∀ el, el ∈ before ++ after →
          getAttribute "listItemId" el ≠ getAttribute "listItemId" P) →
       items = [length before; length before + 1; length before + 2]).
Proof.
  intros HP _ Hcont.
  pose proof (findListBlocksInListItem_filter _ _ _ HP) as Hcode.
  pose proof (findItemBlocks_spec_contiguous _ _ _ HP Hcont) as Hspec.
  eexists. split; [exact Hcode|]. split_and!.
  - by rewrite Hspec.
  - rewrite Hcode in Hspec. unfold findItemBlocks_spec in Hspec.
    rewrite HP in Hspec. cbv zeta in Hspec. by injection Hspec as <-.
  - apply (findListBlocksInListItem_elem _ _ _ _ _ HP Hcode).
    by apply hasListItemId_self.
  - by apply filter_seq_contiguous.
  - intros j. rewrite <- hasListItemId_true.
    apply (findListBlocksInListItem_elem _ _ _ _ _ HP Hcode).
  - intros before after b1 b2 b3 -> Hpos H1 H2 H3 Hother.
    rewrite (findListBlocksInListItem_three _ _ _ _ _ _ _ H1 H2 H3 Hother Hpos) in Hcode.
    injection Hcode as Heq. symmetry. exact Heq.
Qed.

Lemma threeBlockItem_contiguous :
  contiguousItem threeBlockItem (Some (AStr "A")).
Proof.
  intros j k l Hjk Hkl Hj Hl.
  assert (l < 5).
  { apply hasListItemId_true in Hl as (el & Hel & _).
    by apply lookup_lt_Some in Hel. }
  destruct k as [|[|[|[|k]]]]; [|reflexivity..|].
  - assert (j = 0) as -> by lia. vm_compute in Hj. discriminate.
  - assert (l = 4) as -> by lia. vm_compute in Hl. discriminate.
Defined.

Lemma findListBlocksInListItem_contiguous_run_witness :
  findListBlocksInListItem threeBlockItem (mkPosition 2 1) = Some [1; 2; 3] ∧
  findItemBlocks_spec threeBlockItem (mkPosition 2 1) = Some [1; 2; 3].
Proof.
  destruct (findListBlocksInListItem_contiguous_run
              threeBlockItem (mkPosition 2 1) (listParagraph "A" 0 3)
              eq_refl (mk_is_Some _ _ eq_refl) threeBlockItem_contiguous)
    as (items & Hcode & Hspec & _ & _ & _ & _ & Hthree).
  assert (items = [1; 2; 3]) as ->; [|by split].
  apply (Hthree [plainParagraph 2] [listParagraph "B" 0 1] _ _ _ eq_refl);
    [simpl; lia | reflexivity.. |].
  intros el Hel Hid. simpl in Hel.
  rewrite !elem_of_cons, elem_of_nil in Hel.
  destruct Hel as [-> | [-> | []]]; vm_compute in Hid; discriminate.
Defined.

(** ** The identity resolver *)

(** C5, as stated, fails: two blocks that both lack [listItemId] compare
    as the same list. *)
Lemma areRepresentingSameList_two_plain_blocks :
  getAttribute "listItemId" (plainParagraph 0) = None ∧
  getAttribute "listItemId" (plainParagraph 1) = None ∧
  areRepresentingSameList (Some (plainParagraph 0)) (Some (plainParagraph 1)) = Some true.
Proof. repeat split. Qed.

(** C5 (amended).  [areRepresentingSameList] returns false when [blockB]
    is null; for two blocks it returns true if and only if the two
    [getAttribute( 'listItemId' )] results are strictly equal, so it is
    false when exactly one of the blocks lacks the attribute and true when
    both lack it; a null [blockA] next to a block throws.  On blocks it is
    symmetric.  It is a function of its arguments only. *)
Theorem areRepresentingSameList_strict_equality (a b : Element) :
  areRepresentingSameList (Some a) None = Some false ∧
  areRepresentingSameList None None = Some false ∧
  areRepresentingSameList None (Some b) = None ∧
  areRepresentingSameList (Some a) (Some b)
    = Some (bool_decide (getAttribute "listItemId" a = getAttribute "listItemId" b)) ∧
  (areRepresentingSameList (Some a) (Some b) = Some true ↔
     getAttribute "listItemId" a = getAttribute "listItemId" b) ∧
  (areRepresentingSameList (Some a) (Some b) = Some false ↔
     getAttribute "listItemId" a ≠ getAttribute "listItemId" b) ∧
  areRepresentingSameList (Some a) (Some b) = areRepresentingSameList (Some b) (Some a).
Proof.
  unfold areRepresentingSameList, strictEq. repeat split; try done.
  - intros [= H]. by apply bool_decide_eq_true in H.
  - intros H. f_equal. by apply bool_decide_eq_true.
  - intros [= H]. by apply bool_decide_eq_false in H.
  - intros H. f_equal. by apply bool_decide_eq_false.
  - f_equal. apply bool_decide_ext. split; congruence.
Qed.

(** C6, as stated, fails: a block whose [listItemId] is the empty string
    is a list block. *)
Lemma isListBlock_empty_identity :
  getAttribute "listItemId" (mkElement "paragraph" {["listItemId" := AStr EmptyString]} 0)
    = Some (AStr EmptyString) ∧
  isListBlock (mkElement "paragraph" {["listItemId" := AStr EmptyString]} 0) = true.
Proof. split; reflexivity. Qed.

(** C6 (amended).  [isListBlock( block )] is true if and only if the block
    has a [listItemId] attribute, whatever its value: it is true when the
    value is the empty string and false when the attribute is absent. *)
Theorem isListBlock_has_attribute (block : Element) :
  (isListBlock block = true ↔ is_Some (getAttribute "listItemId" block)) ∧
  (isListBlock block = false ↔ getAttribute "listItemId" block = None) ∧
  (getAttribute "listItemId" block = Some (AStr EmptyString) → isListBlock block = true).
Proof.
  unfold isListBlock, hasAttribute, getAttribute. split; [|split].
  - apply bool_decide_eq_true.
  - rewrite bool_decide_eq_false. rewrite <- eq_None_not_Some. done.
  - intros H. apply bool_decide_eq_true. by eexists.
Qed.

Lemma isListBlock_has_attribute_witness :
  isListBlock (mkElement "paragraph" {["listItemId" := AStr EmptyString]} 0) = true.
Proof.
  apply (isListBlock_has_attribute (mkElement "paragraph" {["listItemId" := AStr EmptyString]} 0)).
  reflexivity.
Defined.

(** ** The writer and the indent command *)

Lemma execute_outdentList (editor : Editor) :
  execute "outdentList" editor = Some (IndentCommand_execute backward editor).
Proof. reflexivity. Qed.

Lemma execute_indentList (editor : Editor) :
  execute "indentList" editor = Some (IndentCommand_execute forward editor).
Proof. reflexivity. Qed.

Lemma writer_setAttribute_lookup (key : string) (value : AttrValue) (item : NodeRef)
    (editor : Editor) (j : NodeRef) :
  docRoot (writer_setAttribute key value item editor) !! j
  = if decide (item = j)
    then withAttribute key value <$> docRoot editor !! j
    else docRoot editor !! j.
Proof.
  unfold writer_setAttribute. simpl. rewrite list_lookup_alter.
  by destruct (decide (item = j)) as [->|].
Qed.

Lemma writer_removeAttribute_lookup (key : string) (item : NodeRef)
    (editor : Editor) (j : NodeRef) :
  docRoot (writer_removeAttribute key item editor) !! j
  = if decide (item = j)
    then withoutAttribute key <$> docRoot editor !! j
    else docRoot editor !! j.
Proof.
  unfold writer_removeAttribute. simpl. rewrite list_lookup_alter.
  by destruct (decide (item = j)) as [->|].
Qed.

(** Outdenting a list block at depth 0 removes its list membership and
    nothing else. *)
Lemma outdent_at_zero (editor : Editor) (block : Element) :
  let item := parent (getFirstPosition (docSelection editor)) in
  docRoot editor !! item = Some block →
  isListBlock block = true →
  listIndentOf block = 0%Z →
  let editor' := IndentCommand_execute backward editor in
  docSelection editor' = docSelection editor ∧
  (∀ j, j ≠ item → docRoot editor' !! j = docRoot editor !! j) ∧
  ∃ block', docRoot editor' !! item = Some block' ∧
            isPlainBlock block' ∧ isListBlock block' = false ∧
            name block' = name block ∧ childCount block' = childCount block ∧
            ∀ key, key ≠ "listItemId" → key ≠ "listIndent" → key ≠ "listType" →
                   getAttribute key block' = getAttribute key block.
Proof.
  intros item Hblock Hlist Hzero editor'.
  assert (editor' = writer_removeAttribute "listType" item
                      (writer_removeAttribute "listIndent" item
                         (writer_removeAttribute "listItemId" item editor))) as ->.
  { subst editor'. unfold IndentCommand_execute. fold item.
    by rewrite Hblock, Hlist, Hzero. }
  split; [done|]. split.
  - intros j Hj. rewrite !writer_removeAttribute_lookup.
    by rewrite !decide_False by done.
  - rewrite !writer_removeAttribute_lookup, !decide_True, Hblock by done.
    eexists. split; [reflexivity|].
    unfold isPlainBlock, isListBlock, hasAttribute, getAttribute. simpl.
    repeat split.
    + rewrite lookup_delete_ne, lookup_delete_ne by done. apply lookup_delete_eq.
    + rewrite lookup_delete_ne by done. apply lookup_delete_eq.
    + apply lookup_delete_eq.
    + apply bool_decide_eq_false. rewrite <- eq_None_not_Some.
      rewrite lookup_delete_ne, lookup_delete_ne by done. apply lookup_delete_eq.
    + intros key H1 H2 H3. by rewrite !lookup_delete_ne by done.
Qed.

(** ** The Enter handler *)

Lemma areRepresentingSameList_block (P : Element) (previous : option Element) :
  areRepresentingSameList (Some P) previous
  = Some (match previous with
          | Some q => strictEq (getAttribute "listItemId" P) (getAttribute "listItemId" q)
          | None => false
          end).
Proof. by destruct previous. Qed.

(** The handler, branch by branch, once the position is known to be valid. *)
Lemma getEnterHandlingCallback_cases (uniqueId : string) (editor : Editor)
    (P : Element) (items : list NodeRef) (sameList : bool) :
  let position := getLastPosition (docSelection editor) in
  docRoot editor !! parent position = Some P →
  findListBlocksInListItem (docRoot editor) position = Some items →
  areRepresentingSameList (Some P)
    (previousSibling (parent position) ≫= (λ p, docRoot editor !! p)) = Some sameList →
  getEnterHandlingCallback uniqueId editor
  = Some (if isCollapsed (docSelection editor) && isEmpty P && isListBlock P
          then
            if sameList && bool_decide (last items = Some (parent position))
            then (writer_setAttribute "listItemId" (AStr uniqueId) (parent position) editor,
                  [SetAttribute "listItemId" (AStr uniqueId) (parent position);
                   PreventDefault; Stop])
            else if Nat.eqb (length items) 1
            then (IndentCommand_execute backward editor,
                  [Execute "outdentList"; PreventDefault; Stop])
            else (editor, [])
          else (editor, [])).
Proof.
  intros position HP Hitems Hsame. unfold getEnterHandlingCallback.
  fold position. rewrite HP.
  destruct (isCollapsed (docSelection editor)); [|done].
  destruct (isEmpty P); [|done].
  destruct (isListBlock P); [|done].
  cbn [negb andb]. rewrite Hitems, Hsame. cbn [mbind option_bind].
  destruct (sameList && bool_decide (last items = Some (parent position))); [done|].
  destruct (Nat.eqb (length items) 1); [|done].
  by rewrite execute_outdentList.
Qed.

Lemma enter_set_attribute_conditions (uniqueId : string) (editor editor' : Editor)
    (P : Element) (effects : list Effect) (key : string) (value : AttrValue)
    (item : NodeRef) :
  docRoot editor !! parent (getLastPosition (docSelection editor)) = Some P →
  getEnterHandlingCallback uniqueId editor = Some (editor', effects) →
  SetAttribute key value item ∈ effects →
  freshIdentityConditions editor P ∧
  editor' = writer_setAttribute "listItemId" (AStr uniqueId)
              (parent (getLastPosition (docSelection editor))) editor ∧
  effects = [SetAttribute "listItemId" (AStr uniqueId)
               (parent (getLastPosition (docSelection editor)));
             PreventDefault; Stop].
Proof.
  intros HP Hrun Hin.
  pose proof (findListBlocksInListItem_filter _ _ _ HP) as Hitems.
  pose proof (areRepresentingSameList_block P
    (previousSibling (parent (getLastPosition (docSelection editor)))
       ≫= (λ p, docRoot editor !! p))) as Hsame.
  rewrite (getEnterHandlingCallback_cases _ _ _ _ _ HP Hitems Hsame) in Hrun.
  unfold freshIdentityConditions. rewrite Hsame.
  destruct (isCollapsed (docSelection editor)); cbn [andb] in Hrun;
    [|injection Hrun as <- <-; by apply elem_of_nil in Hin].
  destruct (isEmpty P); cbn [andb] in Hrun;
    [|injection Hrun as <- <-; by apply elem_of_nil in Hin].
  destruct (isListBlock P); cbn [andb] in Hrun;
    [|injection Hrun as <- <-; by apply elem_of_nil in Hin].
  match type of Hsame with _ = Some ?b => destruct b eqn:Hb end; cbn [andb] in Hrun.
  - case_bool_decide as Hlast.
    + injection Hrun as <- <-. repeat split; try done. by eexists.
    + destruct (Nat.eqb _ 1); injection Hrun as <- <-.
      * rewrite !elem_of_cons, elem_of_nil in Hin.
        destruct Hin as [Hin | [Hin | [Hin | []]]]; discriminate.
      * by apply elem_of_nil in Hin.
  - destruct (Nat.eqb _ 1); injection Hrun as <- <-.
    + rewrite !elem_of_cons, elem_of_nil in Hin.
        destruct Hin as [Hin | [Hin | [Hin | []]]]; discriminate.
    + by apply elem_of_nil in Hin.
Qed.

(** C1.  On Enter with a collapsed selection in an empty list block that
    is the last block the walker returns for its item and that has the
    [listItemId] of its previous sibling, the handler writes the
    generator's new [listItemId] on the cursor block (and consumes the
    event); conversely the handler writes an attribute only when all of
    these preconditions hold, so for the first block of the document the
    branch never fires. *)
Theorem enter_assigns_new_identity (uniqueId : string) (editor : Editor) (P : Element) :
  let position := getLastPosition (docSelection editor) in
  docRoot editor !! parent position = Some P →
  (freshIdentityConditions editor P →
     getEnterHandlingCallback uniqueId editor
     = Some (writer_setAttribute "listItemId" (AStr uniqueId) (parent position) editor,
             [SetAttribute "listItemId" (AStr uniqueId) (parent position);
              PreventDefault; Stop])) ∧
  (∀ editor' effects key value item,
     getEnterHandlingCallback uniqueId editor = Some (editor', effects) →
     SetAttribute key value item ∈ effects →
     freshIdentityConditions editor P) ∧
  (parent position = 0 →
     ∀ editor' effects key value item,
       getEnterHandlingCallback uniqueId editor = Some (editor', effects) →
       SetAttribute key value item ∉ effects).
Proof.
  intros position HP. split; [|split].
  - intros (Hcollapsed & Hempty & Hlist & (items & Hitems & Hlast) & Hsame).
    rewrite (getEnterHandlingCallback_cases _ _ _ _ _ HP Hitems Hsame).
    fold position. rewrite Hcollapsed, Hempty, Hlist, Hlast. cbn [andb].
    by rewrite bool_decide_eq_true_2.
  - intros editor' effects key value item Hrun Hin.
    by destruct (enter_set_attribute_conditions _ _ _ _ _ _ _ _ HP Hrun Hin).
  - intros Hfirst editor' effects key value item Hrun Hin.
    destruct (enter_set_attribute_conditions _ _ _ _ _ _ _ _ HP Hrun Hin)
      as ((_ & _ & _ & _ & Hsame) & _).
    fold position in Hsame. rewrite Hfirst in Hsame. discriminate.
Qed.

Lemma enter_assigns_new_identity_witness :
  freshIdentityConditions itemWithEmptyLastBlock (listParagraph "A" 0 0) ∧
  getEnterHandlingCallback "N" itemWithEmptyLastBlock
  = Some (mkEditor [listParagraph "A" 0 1; listParagraph "N" 0 0] (caretAt 1 0),
          [SetAttribute "listItemId" (AStr "N") 1; PreventDefault; Stop]).
Proof.
  assert (Hconditions : freshIdentityConditions itemWithEmptyLastBlock (listParagraph "A" 0 0)).
  { repeat split. by exists [0; 1]. }
  split; [exact Hconditions|].
  destruct (enter_assigns_new_identity "N" itemWithEmptyLastBlock
              (listParagraph "A" 0 0) eq_refl) as (Hfires & _).
  rewrite (Hfires Hconditions). reflexivity.
Defined.

(** A block that is alone in its item does not share the identity of its
    previous sibling: the sibling would be in the item as well. *)
Lemma singleton_item_not_same_list (root : list Element) (position : Position)
    (P : Element) (only : NodeRef) :
  root !! parent position = Some P →
  findListBlocksInListItem root position = Some [only] →
  only = parent position ∧
  areRepresentingSameList (Some P)
    (previousSibling (parent position) ≫= (λ p, root !! p)) = Some false.
Proof.
  intros HP Hitems.
  pose proof (λ k, findListBlocksInListItem_elem _ _ _ _ k HP Hitems) as Hmem.
  assert (Honly : only = parent position).
  { symmetry. apply list_elem_of_singleton, Hmem. by apply hasListItemId_self. }
  split; [done|]. rewrite areRepresentingSameList_block.
  destruct (parent position) as [|k] eqn:Hi; [done|]. simpl.
  destruct (root !! k) as [q|] eqn:Hq; [|done]. simpl.
  unfold strictEq. case_bool_decide as Heq; [|done]. exfalso.
  assert (k ∈ [only]) as Hk.
  { apply Hmem, hasListItemId_true. by exists q. }
  apply list_elem_of_singleton in Hk. lia.
Qed.

(** C2.  On Enter with a collapsed selection in an empty list block for
    which the walker returns a singleton (the fresh-identity branch then
    cannot apply), the handler executes the outdent command and consumes
    the event; for a block at indent 0 the command leaves it without
    [listItemId], [listIndent] and [listType], a plain paragraph, and
    changes nothing else. *)
Theorem enter_outdents_single_block_item (uniqueId : string) (editor : Editor)
    (P : Element) (only : NodeRef) :
  let position := getLastPosition (docSelection editor) in
  docRoot editor !! parent position = Some P →
  isCollapsed (docSelection editor) = true →
  isEmpty P = true →
  isListBlock P = true →
  findListBlocksInListItem (docRoot editor) position = Some [only] →
  ¬ freshIdentityConditions editor P ∧
  execute "outdentList" editor = Some (IndentCommand_execute backward editor) ∧
  getEnterHandlingCallback uniqueId editor
  = Some (IndentCommand_execute backward editor,
          [Execute "outdentList"; PreventDefault; Stop]) ∧
  (getAttribute "listIndent" P = Some (ANum 0) →
     ∃ editor' P',
       getEnterHandlingCallback uniqueId editor
       = Some (editor', [Execute "outdentList"; PreventDefault; Stop]) ∧
       docSelection editor' = docSelection editor ∧
       (∀ j, j ≠ parent position → docRoot editor' !! j = docRoot editor !! j) ∧
       docRoot editor' !! parent position = Some P' ∧
       isPlainBlock P' ∧ isListBlock P' = false ∧
       name P' = name P ∧ childCount P' = childCount P).
Proof.
  intros position HP Hcollapsed Hempty Hlist Hitems.
  destruct (singleton_item_not_same_list _ _ _ _ HP Hitems) as (Honly & Hsame).
  assert (Hrun : getEnterHandlingCallback uniqueId editor
                 = Some (IndentCommand_execute backward editor,
                         [Execute "outdentList"; PreventDefault; Stop])).
  { rewrite (getEnterHandlingCallback_cases _ _ _ _ _ HP Hitems Hsame).
    by rewrite Hcollapsed, Hempty, Hlist. }
  split; [|split; [|split]].
  - intros (_ & _ & _ & _ & Hsame'). fold position in Hsame'. congruence.
  - apply execute_outdentList.
  - exact Hrun.
  - intros Hzero.
    assert (Hfirst : getFirstPosition (docSelection editor) = position).
    { unfold isCollapsed in Hcollapsed. by apply bool_decide_eq_true in Hcollapsed. }
    destruct (outdent_at_zero editor P) as (Hsel & Hframe & P' & HP' & Hplain & Hnot & Hname & Hchildren & _).
    { by rewrite Hfirst. }
    { done. }
    { unfold listIndentOf. by rewrite Hzero. }
    rewrite Hfirst in Hframe, HP'.
    exists (IndentCommand_execute backward editor), P'. by split_and!.
Qed.

Lemma enter_outdents_single_block_item_witness :
  getEnterHandlingCallback "N" singleEmptyItem
  = Some (mkEditor [plainParagraph 0] (caretAt 0 0),
          [Execute "outdentList"; PreventDefault; Stop]).
Proof.
  destruct (enter_outdents_single_block_item "N" singleEmptyItem
              (listParagraph "A" 0 0) 0 eq_refl eq_refl eq_refl eq_refl eq_refl)
    as (_ & _ & Hrun & _).
  rewrite Hrun. vm_compute. reflexivity.
Defined.

(** ** The frame of the fresh-identity write *)

Lemma filter_seq_single (test : nat → bool) (n i : nat) :
  i < n → test i = true →
  (∀ j, j < n → j ≠ i → test j = false) →
  List.filter test (seq 0 n) = [i].
Proof.
  intros Hi Htest Hothers.
  replace n with (i + (1 + (n - S i))) by lia.
  rewrite seq_app, seq_app, !List.filter_app.
  rewrite (filter_none test (seq 0 i)), (filter_none test (seq (0 + i + 1) (n - S i))).
  - simpl. by rewrite Htest.
  - intros j Hj. apply elem_of_seq in Hj. apply Hothers; lia.
  - intros j Hj. apply elem_of_seq in Hj. apply Hothers; lia.
Qed.




(** ** Consuming the event *)

(** C8.  Each handler either applies no action, and then performs no
    effect at all and leaves the editor as it was, or applies exactly one
    action (the attribute write, or the execution of the outdent command)
    and then, and only then, calls [preventDefault] and stops the
    event. *)
Theorem handlers_consume_event_iff_applied (uniqueId : string) (direction : Direction)
    (editor : Editor) :
  (is_Some (docRoot editor !! parent (getLastPosition (docSelection editor))) →
     ∃ editor' effects,
       getEnterHandlingCallback uniqueId editor = Some (editor', effects) ∧
       ((effects = [] ∧ editor' = editor) ∨
        (effects = [SetAttribute "listItemId" (AStr uniqueId)
                      (parent (getLastPosition (docSelection editor)));
                    PreventDefault; Stop] ∧
         editor' = writer_setAttribute "listItemId" (AStr uniqueId)
                     (parent (getLastPosition (docSelection editor))) editor) ∨
        (effects = [Execute "outdentList"; PreventDefault; Stop] ∧
         execute "outdentList" editor = Some editor'))) ∧
  (is_Some (docRoot editor !! parent (getFirstPosition (docSelection editor))) →
     ∃ editor' effects,
       getDeleteHandlingCallback direction editor = Some (editor', effects) ∧
       ((effects = [] ∧ editor' = editor) ∨
        (effects = [Execute "outdentList"; PreventDefault; Stop] ∧
         execute "outdentList" editor = Some editor'))).
Proof.
  split.
  - intros [P HP].
    pose proof (findListBlocksInListItem_filter _ _ _ HP) as Hitems.
    pose proof (areRepresentingSameList_block P
      (previousSibling (parent (getLastPosition (docSelection editor)))
         ≫= (λ p, docRoot editor !! p))) as Hsame.
    rewrite (getEnterHandlingCallback_cases _ _ _ _ _ HP Hitems Hsame).
    destruct (_ && _ && _); [|no_action].
    destruct (_ && _); [by eexists _, _; split; [|right; left]|].
    destruct (Nat.eqb _ 1).
    + eexists _, _. split; [done|]. right. right. split; [done|].
      apply execute_outdentList.
    + no_action.
  - intros [P HP]. unfold getDeleteHandlingCallback.
    destruct (bool_decide (direction = backward)); [|no_action].
    destruct (isCollapsed _); [|no_action].
    destruct (isAtStart _); [|no_action].
    cbn [negb]. rewrite HP.
    destruct (bool_decide (name P = "listItem")); [|no_action].
    cbn [negb].
    match goal with |- context [if ?b then Some (editor, []) else _] => destruct b end;
      [no_action|].
    rewrite execute_outdentList. eexists _, _. split; [done|]. right.
    split; [done|]. apply execute_outdentList.
Qed.

Lemma handlers_consume_event_iff_applied_witness :
  (∃ editor' effects,
     getEnterHandlingCallback "N" itemWithEmptyLastBlock = Some (editor', effects) ∧
     effects ≠ []) ∧
  (∃ editor' effects,
     getDeleteHandlingCallback backward taggedListItems = Some (editor', effects) ∧
     effects = [] ∧ editor' = taggedListItems).
Proof.
  destruct (handlers_consume_event_iff_applied "N" backward itemWithEmptyLastBlock)
    as (Henter & _).
  destruct (handlers_consume_event_iff_applied "N" backward taggedListItems)
    as (_ & Hdelete).
  split.
  - destruct (Henter (mk_is_Some _ _ eq_refl)) as (editor' & effects & Hrun & _).
    exists editor', effects. split; [exact Hrun|].
    vm_compute in Hrun. injection Hrun as _ <-. discriminate.
  - destruct (Hdelete (mk_is_Some _ _ eq_refl)) as (editor' & effects & Hrun & _).
    exists editor', effects. split; [exact Hrun|].
    vm_compute in Hrun. injection Hrun as <- <-. split; reflexivity.
Defined.

(** ** The Backspace handler *)

Lemma getDeleteHandlingCallback_by_name (direction : Direction) (editor : Editor) :
  snd <$> getDeleteHandlingCallback direction editor
  = deleteEffectsByName direction (docSelection editor) (name <$> docRoot editor).
Proof.
  unfold getDeleteHandlingCallback, deleteEffectsByName.
  destruct (bool_decide (direction = backward)); [|done].
  destruct (isCollapsed _); [|done].
  destruct (isAtStart _); [|done]. cbn [negb].
  rewrite list_lookup_fmap.
  destruct (docRoot editor !! parent _) as [P|]; [|done]. cbn [fmap option_fmap option_map].
  destruct (bool_decide (name P = "listItem")); [|done]. cbn [negb].
  destruct (parent (getFirstPosition (docSelection editor))) as [|k]; [done|].
  cbn [previousSibling mbind option_bind]. rewrite list_lookup_fmap.
  destruct (docRoot editor !! k) as [q|]; [|done]. cbn [fmap option_fmap option_map].
  by destruct (bool_decide (name q = "listItem")).
Qed.

Lemma getDeleteHandlingCallback_cases (direction : Direction) (editor : Editor)
    (P : Element) :
  let firstPosition := getFirstPosition (docSelection editor) in
  docRoot editor !! parent firstPosition = Some P →
  getDeleteHandlingCallback direction editor
  = Some (if bool_decide (direction = backward)
             && isCollapsed (docSelection editor)
             && isAtStart firstPosition
             && bool_decide (name P = "listItem")
             && negb (match previousSibling (parent firstPosition)
                              ≫= (λ p, docRoot editor !! p) with
                      | Some previous => bool_decide (name previous = "listItem")
                      | None => false
                      end)
          then (IndentCommand_execute backward editor,
                [Execute "outdentList"; PreventDefault; Stop])
          else (editor, [])).
Proof.
  intros firstPosition HP. unfold getDeleteHandlingCallback. fold firstPosition.
  destruct (bool_decide (direction = backward)); [|done].
  destruct (isCollapsed _); [|done].
  destruct (isAtStart _); [|done]. cbn [negb andb]. rewrite HP.
  destruct (bool_decide (name P = "listItem")); [|done]. cbn [negb andb].
  by destruct (match _ ≫= _ with Some _ => _ | None => _ end).
Qed.

Lemma backspaceConditions_decide (direction : Direction) (editor : Editor) (P : Element) :
  let firstPosition := getFirstPosition (docSelection editor) in
  backspaceConditions direction editor P ↔
  bool_decide (direction = backward)
  && isCollapsed (docSelection editor)
  && isAtStart firstPosition
  && bool_decide (name P = "listItem")
  && negb (match previousSibling (parent firstPosition)
                   ≫= (λ p, docRoot editor !! p) with
           | Some previous => bool_decide (name previous = "listItem")
           | None => false
           end) = true.
Proof.
  intros firstPosition. unfold backspaceConditions. fold firstPosition.
  rewrite !andb_true_iff, !bool_decide_eq_true, negb_true_iff.
  destruct (previousSibling (parent firstPosition) ≫= _) as [q|].
  - rewrite bool_decide_eq_false. split.
    + intros (? & ? & ? & ? & Hprev). split_and!; try done. by apply Hprev.
    + intros ((((? & ?) & ?) & ?) & Hprev). split_and!; try done. by intros ? [= <-].
  - split.
    + intros (? & ? & ? & ? & _). by split_and!.
    + intros ((((? & ?) & ?) & ?) & _). by split_and!.
Qed.

(** C3, as stated, fails in both directions.  With the caret at the start
    of the first of two paragraphs carrying [listItemId] A, a list block
    with no sibling before it, Backspace does nothing; and on an element
    named [listItem] without any [listItemId] the outdent command is
    executed. *)
Lemma backspace_not_by_identity :
  (isCollapsed (docSelection documentListFirstItem) = true ∧
   isAtStart (getFirstPosition (docSelection documentListFirstItem)) = true ∧
   (isListBlock <$> docRoot documentListFirstItem !! 0) = Some true ∧
   previousSibling 0 = None ∧
   getDeleteHandlingCallback backward documentListFirstItem
   = Some (documentListFirstItem, [])) ∧
  ((isListBlock <$> docRoot legacyFirstItem !! 0) = Some false ∧
   snd <$> getDeleteHandlingCallback backward legacyFirstItem
   = Some [Execute "outdentList"; PreventDefault; Stop]).
Proof. split; split_and!; reflexivity. Qed.

(** C3 (amended).  On Backspace the handler executes the outdent command
    (and consumes the event) exactly when the direction is backward, the
    selection is collapsed, the caret is at the start of its block, the
    block is an element named [listItem], and the sibling just before it
    is absent or is not named [listItem]; in every other state it does
    nothing. *)
Theorem backspace_outdents_first_listItem (direction : Direction) (editor : Editor)
    (P : Element) :
  docRoot editor !! parent (getFirstPosition (docSelection editor)) = Some P →
  (backspaceConditions direction editor P →
     execute "outdentList" editor = Some (IndentCommand_execute backward editor) ∧
     getDeleteHandlingCallback direction editor
     = Some (IndentCommand_execute backward editor,
             [Execute "outdentList"; PreventDefault; Stop])) ∧
  (¬ backspaceConditions direction editor P →
     getDeleteHandlingCallback direction editor = Some (editor, [])).
Proof.
  intros HP. rewrite (getDeleteHandlingCallback_cases _ _ _ HP).
  rewrite backspaceConditions_decide. split.
  - intros ->. split; [apply execute_outdentList | done].
  - intros Hno. apply not_true_is_false in Hno. by rewrite Hno.
Qed.

Lemma backspace_outdents_first_listItem_witness :
  backspaceConditions backward legacyFirstItem (legacyListItem 0 1) ∧
  snd <$> getDeleteHandlingCallback backward legacyFirstItem
  = Some [Execute "outdentList"; PreventDefault; Stop].
Proof.
  assert (Hconditions : backspaceConditions backward legacyFirstItem (legacyListItem 0 1)).
  { unfold backspaceConditions. split_and!; try reflexivity. intros previous [=]. }
  split; [exact Hconditions|].
  destruct (backspace_outdents_first_listItem backward legacyFirstItem
              (legacyListItem 0 1) eq_refl) as (Hfires & _).
  destruct (Hfires Hconditions) as (_ & Hrun). rewrite Hrun. reflexivity.
Defined.

(** C10.  The Backspace handler looks at element names only.  If the
    cursor block is not named [listItem] it does nothing, whether or not
    the block carries a [listItemId]; if the previous sibling is named
    [listItem] it does nothing, whatever that sibling's attributes; and two
    documents with the same selection and the same element names get the
    same effects, whatever their attributes. *)
Theorem backspace_decides_by_element_name (direction : Direction) (editor : Editor)
    (P : Element) :
  docRoot editor !! parent (getFirstPosition (docSelection editor)) = Some P →
  (name P ≠ "listItem" →
     getDeleteHandlingCallback direction editor = Some (editor, [])) ∧
  (∀ previous,
     previousSibling (parent (getFirstPosition (docSelection editor)))
       ≫= (λ p, docRoot editor !! p) = Some previous →
     name previous = "listItem" →
     getDeleteHandlingCallback direction editor = Some (editor, [])) ∧
  (∀ other : Editor,
     docSelection other = docSelection editor →
     name <$> docRoot other = name <$> docRoot editor →
     snd <$> getDeleteHandlingCallback direction other
     = snd <$> getDeleteHandlingCallback direction editor).
Proof.
  intros HP. split_and!.
  - intros Hname. rewrite (getDeleteHandlingCallback_cases _ _ _ HP).
    rewrite (bool_decide_eq_false_2 _ Hname). by rewrite !andb_false_r.
  - intros previous Hprev Hname.
    rewrite (getDeleteHandlingCallback_cases _ _ _ HP), Hprev.
    rewrite (bool_decide_eq_true_2 _ Hname). by rewrite !andb_false_r.
  - intros other Hsel Hnames.
    by rewrite !getDeleteHandlingCallback_by_name, Hsel, Hnames.
Qed.

Lemma backspace_decides_by_element_name_witness :
  name (listParagraph "A" 0 1) ≠ "listItem" ∧
  isListBlock (listParagraph "A" 0 1) = true ∧
  getDeleteHandlingCallback backward documentListFirstItem
  = Some (documentListFirstItem, []).
Proof.
  assert (Hname : name (listParagraph "A" 0 1) ≠ "listItem") by discriminate.
  split; [exact Hname|]. split; [reflexivity|].
  destruct (backspace_decides_by_element_name backward documentListFirstItem
              (listParagraph "A" 0 1) eq_refl) as (Hdeclines & _).
  exact (Hdeclines Hname).
Defined.

(** ** The indent command *)

Lemma listIndentOf_withAttribute (n : Z) (block : Element) :
  listIndentOf (withAttribute "listIndent" (ANum n) block) = n.
Proof.
  unfold listIndentOf, getAttribute, withAttribute. simpl.
  by rewrite lookup_insert_eq.
Qed.

(** C9.  For a block with a preceding sibling, the forward indent command
    leaves that sibling as it is and writes on the block no [listIndent]
    other than its old value plus one, and that only when the new value
    is at most the sibling's [listIndent] plus one; an attempt past the
    cap changes nothing.  Within the cap the indent of a list block is
    applied. *)
Theorem indent_forward_capped (editor : Editor) (k : NodeRef) (block previous : Element) :
  parent (getFirstPosition (docSelection editor)) = S k →
  docRoot editor !! S k = Some block →
  docRoot editor !! k = Some previous →
  ∃ editor' block',
    execute "indentList" editor = Some editor' ∧
    docRoot editor' !! k = Some previous ∧
    docRoot editor' !! S k = Some block' ∧
    (listIndentOf block' ≠ listIndentOf block →
       listIndentOf block' = (listIndentOf block + 1)%Z ∧
       (listIndentOf block' ≤ listIndentOf previous + 1)%Z) ∧
    ((listIndentOf block + 1 > listIndentOf previous + 1)%Z → editor' = editor) ∧
    (isListBlock block = true →
     (listIndentOf block + 1 ≤ listIndentOf previous + 1)%Z →
       listIndentOf block' = (listIndentOf block + 1)%Z).
Proof.
  intros Hpos Hblock Hprevious.
  exists (IndentCommand_execute forward editor). rewrite execute_indentList.
  unfold IndentCommand_execute. rewrite Hpos, Hblock.
  cbn [previousSibling mbind option_bind]. rewrite Hprevious.
  destruct (isListBlock block); cbn [negb].
  - destruct (Z.leb_spec (listIndentOf block + 1) (listIndentOf previous + 1)) as [Hcap|Hcap].
    + exists (withAttribute "listIndent" (ANum (listIndentOf block + 1)) block).
      rewrite !writer_setAttribute_lookup, decide_False, decide_True, Hblock by lia.
      rewrite listIndentOf_withAttribute.
      split_and!; try done; lia.
    + exists block. split_and!; try done; lia.
  - exists block. split_and!; done.
Qed.

Lemma indent_forward_capped_witness :
  (∃ editor',
     execute "indentList" nestedSecondBlock = Some editor' ∧
     (listIndentOf <$> docRoot editor' !! 1) = Some 2%Z ∧
     execute "indentList" editor' = Some editor').
Proof.
  destruct (indent_forward_capped nestedSecondBlock 0
              (listParagraph "B" 1 1) (listParagraph "A" 1 1)
              eq_refl eq_refl eq_refl)
    as (editor' & block' & Hrun & _ & Hblock' & _ & _ & Happlied).
  exists editor'. split; [exact Hrun|].
  vm_compute in Hrun. injection Hrun as <-.
  split; vm_compute; reflexivity.
Defined.

(** ** Further facts about the walker *)

Lemma findListBlocksInListItem_is_Some (root : list Element) (position : Position) :
  is_Some (findListBlocksInListItem root position) ↔ parent position < length root.
Proof.
  unfold findListBlocksInListItem. rewrite <- lookup_lt_is_Some.
  destruct (root !! parent position); split; intros [? ?]; by eauto.
Qed.

Lemma findListBlocksInListItem_Some_inv (root : list Element) (position : Position)
    (items : list NodeRef) :
  findListBlocksInListItem root position = Some items →
  ∃ P, root !! parent position = Some P.
Proof.
  unfold findListBlocksInListItem. destruct (root !! parent position); [eauto | done].
Qed.

Lemma filter_seq_sorted (test : nat → bool) (a n : nat) :
  StronglySorted lt (List.filter test (seq a n)).
Proof.
  revert a. induction n as [|n IH]; intros a; [constructor|]. simpl.
  destruct (test a); [|apply IH]. constructor; [apply IH|].
  apply Forall_forall. intros j Hj.
  apply list_elem_of_In, List.filter_In in Hj as [Hj _].
  apply list_elem_of_In, elem_of_seq in Hj. lia.
Qed.

Lemma findListBlocksInListItem_sorted (root : list Element) (position : Position)
    (items : list NodeRef) :
  findListBlocksInListItem root position = Some items →
  StronglySorted lt items ∧ NoDup items ∧ ∀ j, j ∈ items → j < length root.
Proof.
  intros Hitems.
  destruct (findListBlocksInListItem_Some_inv _ _ _ Hitems) as [P HP].
  rewrite (findListBlocksInListItem_filter _ _ _ HP) in Hitems.
  injection Hitems as <-. split_and!.
  - apply filter_seq_sorted.
  - apply NoDup_ListNoDup, List.NoDup_filter, List.seq_NoDup.
  - intros j Hj. apply list_elem_of_In, List.filter_In in Hj as [Hj _].
    apply list_elem_of_In, elem_of_seq in Hj. lia.
Qed.

Lemma walker_from_member (root : list Element) (position : Position)
    (items : list NodeRef) (j : NodeRef) (anyOffset : nat) :
  findListBlocksInListItem root position = Some items →
  j ∈ items →
  findListBlocksInListItem root (mkPosition j anyOffset) = Some items.
Proof.
  intros Hitems Hj.
  destruct (findListBlocksInListItem_Some_inv _ _ _ Hitems) as [P HP].
  apply (findListBlocksInListItem_elem _ _ _ _ j HP Hitems) in Hj.
  apply hasListItemId_true in Hj as (el & Hel & Hid).
  rewrite (findListBlocksInListItem_filter _ _ _ HP) in Hitems.
  rewrite (findListBlocksInListItem_filter _ (mkPosition j anyOffset) el) by done.
  by rewrite Hid.
Qed.

(** X1.  The walker returns references to blocks of the root, strictly
    increasing: document order, no block twice.  It throws exactly when
    the position's block does not exist. *)
Theorem findListBlocksInListItem_document_order (root : list Element)
    (position : Position) :
  (findListBlocksInListItem root position = None ↔ length root ≤ parent position) ∧
  (∀ items, findListBlocksInListItem root position = Some items →
     StronglySorted lt items ∧ NoDup items ∧ ∀ j, j ∈ items → j < length root).
Proof.
  split.
  - rewrite eq_None_not_Some, findListBlocksInListItem_is_Some. lia.
  - apply findListBlocksInListItem_sorted.
Qed.

Lemma findListBlocksInListItem_document_order_witness :
  StronglySorted lt [1; 2; 3].
Proof.
  destruct (findListBlocksInListItem_document_order threeBlockItem (mkPosition 2 1))
    as (_ & Hsorted).
  exact (proj1 (Hsorted [1; 2; 3] eq_refl)).
Defined.

(** X2.  The walker gives the same blocks from every block it returns and
    from every offset in it: an item is found whole from any of its
    blocks. *)
Theorem findListBlocksInListItem_from_any_block (root : list Element)
    (position : Position) (items : list NodeRef) (j : NodeRef) (anyOffset : nat) :
  findListBlocksInListItem root position = Some items →
  j ∈ items →
  findListBlocksInListItem root (mkPosition j anyOffset) = Some items.
Proof. apply walker_from_member. Qed.

Lemma findListBlocksInListItem_from_any_block_witness :
  findListBlocksInListItem threeBlockItem (mkPosition 3 0) = Some [1; 2; 3].
Proof.
  apply (findListBlocksInListItem_from_any_block threeBlockItem (mkPosition 1 7)
           [1; 2; 3] 3 0); [reflexivity|].
  apply elem_of_cons. right. apply elem_of_cons. right. apply list_elem_of_here.
Defined.

(** X3.  The blocks the walker returns are exactly the siblings that
    [areRepresentingSameList] joins to the cursor block. *)
Theorem findListBlocksInListItem_same_list (root : list Element) (position : Position)
    (P : Element) (items : list NodeRef) (j : NodeRef) :
  root !! parent position = Some P →
  findListBlocksInListItem root position = Some items →
  j ∈ items ↔ areRepresentingSameList (Some P) (root !! j) = Some true.
Proof.
  intros HP Hitems.
  rewrite (findListBlocksInListItem_elem _ _ _ _ j HP Hitems), hasListItemId_true.
  rewrite areRepresentingSameList_block. destruct (root !! j) as [el|].
  - unfold strictEq. split.
    + intros (el' & [= <-] & Hid). f_equal. by apply bool_decide_eq_true.
    + intros [= Hid]. apply bool_decide_eq_true in Hid. by exists el.
  - split; [by intros (el & Hel & _) | done].
Qed.

Lemma findListBlocksInListItem_same_list_witness :
  areRepresentingSameList (Some (listParagraph "A" 0 3)) (threeBlockItem !! 3) = Some true.
Proof.
  apply (findListBlocksInListItem_same_list threeBlockItem (mkPosition 2 1)
           (listParagraph "A" 0 3) [1; 2; 3] 3 eq_refl eq_refl).
  apply elem_of_cons. right. apply elem_of_cons. right. apply list_elem_of_here.
Defined.

(** X4.  On blocks [areRepresentingSameList] is reflexive and transitive
    (with the symmetry of C5, an equivalence), and a block it joins to a
    list block is a list block. *)
Theorem areRepresentingSameList_equivalence (a b c : Element) :
  areRepresentingSameList (Some a) (Some a) = Some true ∧
  (areRepresentingSameList (Some a) (Some b) = Some true →
   areRepresentingSameList (Some b) (Some c) = Some true →
   areRepresentingSameList (Some a) (Some c) = Some true) ∧
  (areRepresentingSameList (Some a) (Some b) = Some true →
   isListBlock a = isListBlock b).
Proof.
  unfold areRepresentingSameList, strictEq, isListBlock, hasAttribute, getAttribute.
  split_and!.
  - f_equal. by apply bool_decide_eq_true.
  - intros [= Hab] [= Hbc]. apply bool_decide_eq_true in Hab, Hbc.
    f_equal. apply bool_decide_eq_true. congruence.
  - intros [= Hab]. apply bool_decide_eq_true in Hab. by rewrite Hab.
Qed.

Lemma areRepresentingSameList_equivalence_witness :
  areRepresentingSameList (Some (listParagraph "A" 0 1)) (Some (listParagraph "A" 2 0))
  = Some true.
Proof.
  destruct (areRepresentingSameList_equivalence
              (listParagraph "A" 0 1) (listParagraph "A" 1 5) (listParagraph "A" 2 0))
    as (_ & Htrans & _).
  apply Htrans; reflexivity.
Defined.

(** X5.  The walker cuts the root into items: every block is in the
    result found from it, and the results found from two positions are
    the same list or have no block in common. *)
Theorem findListBlocksInListItem_partition (root : list Element)
    (position1 position2 : Position) (items1 items2 : list NodeRef) :
  findListBlocksInListItem root position1 = Some items1 →
  findListBlocksInListItem root position2 = Some items2 →
  parent position1 ∈ items1 ∧
  (items1 = items2 ∨ ∀ j, j ∈ items1 → j ∉ items2).
Proof.
  intros Hitems1 Hitems2.
  destruct (findListBlocksInListItem_Some_inv _ _ _ Hitems1) as [P1 HP1].
  destruct (findListBlocksInListItem_Some_inv _ _ _ Hitems2) as [P2 HP2].
  split.
  - apply (findListBlocksInListItem_elem _ _ _ _ _ HP1 Hitems1).
    by apply hasListItemId_self.
  - destruct (decide (getAttribute "listItemId" P1 = getAttribute "listItemId" P2))
      as [Hid|Hid].
    + left. rewrite (findListBlocksInListItem_filter _ _ _ HP1) in Hitems1.
      rewrite (findListBlocksInListItem_filter _ _ _ HP2) in Hitems2.
      rewrite Hid in Hitems1. congruence.
    + right. intros j Hj1 Hj2.
      apply (findListBlocksInListItem_elem _ _ _ _ j HP1 Hitems1) in Hj1.
      apply (findListBlocksInListItem_elem _ _ _ _ j HP2 Hitems2) in Hj2.
      apply hasListItemId_true in Hj1 as (el & Hel & Hid1).
      apply hasListItemId_true in Hj2 as (el' & Hel' & Hid2).
      congruence.
Qed.

Lemma findListBlocksInListItem_partition_witness :
  0 ∈ [0; 2] ∧ ([0; 2] = [0; 2] ∨ 2 ∈ [0; 2]).
Proof.
  destruct (findListBlocksInListItem_partition interleavedItems
              (mkPosition 0 0) (mkPosition 2 0) [0; 2] [0; 2] eq_refl eq_refl)
    as (Hself & [Heq | Hdisjoint]).
  - split; [exact Hself | left; exact Heq].
  - split; [exact Hself | right].
    apply elem_of_cons. right. apply list_elem_of_here.
Defined.

(** ** Further facts about the Enter handler *)

Lemma getEnterHandlingCallback_is_Some (uniqueId : string) (editor : Editor) :
  is_Some (getEnterHandlingCallback uniqueId editor) ↔
  parent (getLastPosition (docSelection editor)) < length (docRoot editor).
Proof.
  rewrite <- lookup_lt_is_Some. split.
  - intros [result Hrun]. unfold getEnterHandlingCallback in Hrun.
    destruct (docRoot editor !! _); [by eexists | done].
  - intros [P HP].
    pose proof (findListBlocksInListItem_filter _ _ _ HP) as Hitems.
    pose proof (areRepresentingSameList_block P
      (previousSibling (parent (getLastPosition (docSelection editor)))
         ≫= (λ p, docRoot editor !! p))) as Hsame.
    rewrite (getEnterHandlingCallback_cases _ _ _ _ _ HP Hitems Hsame). by eexists.
Qed.

(** The second branch of the handler: a block alone in its item. *)
Lemma getEnterHandlingCallback_singleton (uniqueId : string) (editor : Editor)
    (P : Element) (only : NodeRef) :
  let position := getLastPosition (docSelection editor) in
  docRoot editor !! parent position = Some P →
  isCollapsed (docSelection editor) = true →
  isEmpty P = true →
  isListBlock P = true →
  findListBlocksInListItem (docRoot editor) position = Some [only] →
  getEnterHandlingCallback uniqueId editor
  = Some (IndentCommand_execute backward editor,
          [Execute "outdentList"; PreventDefault; Stop]).
Proof.
  intros position HP Hcollapsed Hempty Hlist Hitems.
  destruct (singleton_item_not_same_list _ _ _ _ HP Hitems) as (_ & Hsame).
  rewrite (getEnterHandlingCallback_cases _ _ _ _ _ HP Hitems Hsame).
  by rewrite Hcollapsed, Hempty, Hlist.
Qed.

(** X6.  Enter executes the outdent command exactly when the selection is
    collapsed in an empty list block that is the only block the walker
    returns; the event is then consumed. *)
Theorem enter_outdents_iff_single_block (uniqueId : string) (editor : Editor)
    (P : Element) :
  let position := getLastPosition (docSelection editor) in
  docRoot editor !! parent position = Some P →
  (∃ editor' effects,
     getEnterHandlingCallback uniqueId editor = Some (editor', effects) ∧
     Execute "outdentList" ∈ effects) ↔
  (isCollapsed (docSelection editor) = true ∧
   isEmpty P = true ∧
   isListBlock P = true ∧
   findListBlocksInListItem (docRoot editor) position = Some [parent position]).
Proof.
  intros position HP. split.
  - intros (editor' & effects & Hrun & Hin).
    pose proof (findListBlocksInListItem_filter _ _ _ HP) as Hitems.
    pose proof (areRepresentingSameList_block P
      (previousSibling (parent position) ≫= (λ p, docRoot editor !! p))) as Hsame.
    rewrite (getEnterHandlingCallback_cases _ _ _ _ _ HP Hitems Hsame) in Hrun.
    fold position in Hrun.
    destruct (isCollapsed (docSelection editor)); cbn [andb] in Hrun;
      [|injection Hrun as <- <-; by apply elem_of_nil in Hin].
    destruct (isEmpty P); cbn [andb] in Hrun;
      [|injection Hrun as <- <-; by apply elem_of_nil in Hin].
    destruct (isListBlock P); cbn [andb] in Hrun;
      [|injection Hrun as <- <-; by apply elem_of_nil in Hin].
    destruct (_ && bool_decide _).
    { injection Hrun as <- <-. rewrite !elem_of_cons, elem_of_nil in Hin.
      destruct Hin as [Hin | [Hin | [Hin | []]]]; discriminate. }
    destruct (Nat.eqb _ 1) eqn:Hone;
      [|injection Hrun as <- <-; by apply elem_of_nil in Hin].
    apply Nat.eqb_eq in Hone. split_and!; try done.
    rewrite Hitems. f_equal.
    destruct (List.filter _ _) as [|only [|]] eqn:Hfilter; try done.
    destruct (singleton_item_not_same_list (docRoot editor) position P only HP)
      as (-> & _); [exact Hitems | done].
  - intros (Hcollapsed & Hempty & Hlist & Hitems).
    eexists _, _. split.
    + by apply (getEnterHandlingCallback_singleton _ _ _ (parent position) HP).
    + apply list_elem_of_here.
Qed.

Lemma enter_outdents_iff_single_block_witness :
  ∃ editor' effects,
    getEnterHandlingCallback "N" singleEmptyItem = Some (editor', effects) ∧
    Execute "outdentList" ∈ effects.
Proof.
  apply (enter_outdents_iff_single_block "N" singleEmptyItem (listParagraph "A" 0 0) eq_refl).
  split_and!; reflexivity.
Defined.

(** X7.  Enter is left to the default handling, with no effect and the
    editor as it was, whenever the selection is not collapsed, or the
    cursor block is not empty, or it is not a list block, or a later
    sibling carries its identity. *)
Theorem enter_left_to_default (uniqueId : string) (editor : Editor) (P : Element) :
  let position := getLastPosition (docSelection editor) in
  docRoot editor !! parent position = Some P →
  isCollapsed (docSelection editor) = false ∨
  isEmpty P = false ∨
  isListBlock P = false ∨
  (∃ j Q, parent position < j ∧ docRoot editor !! j = Some Q ∧
          getAttribute "listItemId" Q = getAttribute "listItemId" P) →
  getEnterHandlingCallback uniqueId editor = Some (editor, []).
Proof.
  intros position HP Hcase.
  pose proof (findListBlocksInListItem_filter _ _ _ HP) as Hitems.
  pose proof (areRepresentingSameList_block P
    (previousSibling (parent position) ≫= (λ p, docRoot editor !! p))) as Hsame.
  rewrite (getEnterHandlingCallback_cases _ _ _ _ _ HP Hitems Hsame).
  fold position.
  destruct Hcase as [-> | [-> | [-> | (j & Q & Hj & HQ & Hid)]]];
    [done | by rewrite andb_false_r | by rewrite andb_false_r |].
  destruct (_ && _ && _); [|done].
  assert (Hlater : hasListItemId (docRoot editor) (getAttribute "listItemId" P) j = true).
  { apply hasListItemId_true. by exists Q. }
  rewrite bool_decide_eq_false_2, andb_false_r.
  - destruct (Nat.eqb _ 1) eqn:Hone; [|done]. exfalso.
    apply Nat.eqb_eq in Hone.
    destruct (List.filter _ _) as [|only [|]] eqn:Hfilter; try done.
    assert (j ∈ [only]) as Hjin.
    { by apply (findListBlocksInListItem_elem _ _ _ _ j HP Hitems). }
    assert (parent position ∈ [only]) as Hiin.
    { apply (findListBlocksInListItem_elem _ _ _ _ _ HP Hitems).
      by apply hasListItemId_self. }
    apply list_elem_of_singleton in Hjin, Hiin. lia.
  - intros Hlast.
    pose proof (proj1 (findListBlocksInListItem_last _ _ _ _ HP Hitems) Hlast j Hj) as Hnone.
    by rewrite Hnone in Hlater.
Qed.

Lemma enter_left_to_default_witness :
  getEnterHandlingCallback "N"
    (mkEditor [listParagraph "A" 0 0; listParagraph "A" 0 2] (caretAt 0 0))
  = Some (mkEditor [listParagraph "A" 0 0; listParagraph "A" 0 2] (caretAt 0 0), []).
Proof.
  apply (enter_left_to_default "N"
           (mkEditor [listParagraph "A" 0 0; listParagraph "A" 0 2] (caretAt 0 0))
           (listParagraph "A" 0 0) eq_refl).
  right. right. right. exists 1, (listParagraph "A" 0 2).
  split_and!; [simpl; lia | reflexivity | reflexivity].
Defined.

(** ** The items after the fresh-identity write *)

Lemma filter_filter_bool {A : Type} (f g : A → bool) (l : list A) :
  List.filter f (List.filter g l) = List.filter (λ x, g x && f x) l.
Proof.
  induction l as [|x l IH]; [done|]. simpl.
  destruct (g x); simpl; [destruct (f x)|]; by rewrite ?IH.
Qed.

Lemma hasListItemId_after_write (uniqueId : string) (editor : Editor) (i j : NodeRef)
    (P : Element) (listItemId : option AttrValue) :
  docRoot editor !! i = Some P →
  listItemId ≠ Some (AStr uniqueId) →
  hasListItemId (docRoot (writer_setAttribute "listItemId" (AStr uniqueId) i editor))
    listItemId j
  = hasListItemId (docRoot editor) listItemId j && negb (Nat.eqb j i).
Proof.
  intros HP Hother. unfold hasListItemId. rewrite writer_setAttribute_lookup.
  destruct (decide (i = j)) as [<-|Hne].
  - rewrite HP, Nat.eqb_refl, andb_false_r. simpl.
    unfold strictEq, getAttribute, withAttribute. simpl.
    rewrite lookup_insert_eq. by apply bool_decide_eq_false.
  - rewrite (proj2 (Nat.eqb_neq j i)) by done. by rewrite andb_true_r.
Qed.

(** From the cursor block, the walker finds the block alone. *)
Lemma walker_after_write_self (uniqueId : string) (editor : Editor) (P : Element)
    (i anyOffset : nat) :
  docRoot editor !! i = Some P →
  freshFor uniqueId (docRoot editor) →
  findListBlocksInListItem
    (docRoot (writer_setAttribute "listItemId" (AStr uniqueId) i editor))
    (mkPosition i anyOffset)
  = Some [i].
Proof.
  intros HP Hfresh.
  assert (HP' : docRoot (writer_setAttribute "listItemId" (AStr uniqueId) i editor) !! i
                = Some (withAttribute "listItemId" (AStr uniqueId) P)).
  { rewrite writer_setAttribute_lookup, decide_True, HP by done. done. }
  rewrite (findListBlocksInListItem_filter _ (mkPosition i anyOffset) _ HP'). f_equal.
  apply filter_seq_single.
  - eapply lookup_lt_Some, HP'.
  - by apply (hasListItemId_self _ _ _ HP').
  - intros j Hj Hne.
    match goal with |- ?t = false => destruct t eqn:Hid; [|done] end.
    apply hasListItemId_true in Hid as (el & Hel & Hid).
    rewrite writer_setAttribute_lookup, decide_False in Hel by done. exfalso.
    apply (Hfresh el); [by eapply list_elem_of_lookup_2|].
    rewrite Hid. unfold getAttribute, withAttribute. simpl. apply lookup_insert_eq.
Qed.

(** From any other block, the walker finds what it found before, less the
    cursor block. *)
Lemma walker_after_write_other (uniqueId : string) (editor : Editor) (P : Element)
    (i k anyOffset : nat) (items : list NodeRef) :
  docRoot editor !! i = Some P →
  freshFor uniqueId (docRoot editor) →
  k ≠ i →
  findListBlocksInListItem (docRoot editor) (mkPosition k anyOffset) = Some items →
  findListBlocksInListItem
    (docRoot (writer_setAttribute "listItemId" (AStr uniqueId) i editor))
    (mkPosition k anyOffset)
  = Some (List.filter (λ j, negb (Nat.eqb j i)) items).
Proof.
  intros HP Hfresh Hk Hitems.
  destruct (findListBlocksInListItem_Some_inv _ _ _ Hitems) as [Q HQ]. simpl in HQ.
  assert (HQ' : docRoot (writer_setAttribute "listItemId" (AStr uniqueId) i editor) !! k
                = Some Q).
  { by rewrite writer_setAttribute_lookup, decide_False. }
  rewrite (findListBlocksInListItem_filter _ (mkPosition k anyOffset) _ HQ) in Hitems.
  injection Hitems as <-.
  rewrite (findListBlocksInListItem_filter _ (mkPosition k anyOffset) _ HQ'). f_equal.
  rewrite filter_filter_bool.
  replace (length (docRoot (writer_setAttribute "listItemId" (AStr uniqueId) i editor)))
    with (length (docRoot editor)) by (symmetry; apply length_alter).
  apply List.filter_ext. intros j.
  apply (hasListItemId_after_write _ _ _ _ _ _ HP).
  apply Hfresh. by eapply list_elem_of_lookup_2.
Qed.

(** X8.  When the fresh-identity branch fires with a token that no block
    carries, the item is split in two: the walker finds the cursor block
    alone, and from every other block of the old item it finds the old
    item without the cursor block, which was its last block. *)
Theorem enter_splits_item (uniqueId : string) (editor editor' : Editor)
    (P : Element) (effects : list Effect) (items : list NodeRef)
    (key : string) (value : AttrValue) (item : NodeRef) :
  let position := getLastPosition (docSelection editor) in
  docRoot editor !! parent position = Some P →
  getEnterHandlingCallback uniqueId editor = Some (editor', effects) →
  SetAttribute key value item ∈ effects →
  freshFor uniqueId (docRoot editor) →
  findListBlocksInListItem (docRoot editor) position = Some items →
  ∃ rest,
    items = rest ++ [parent position] ∧
    rest ≠ [] ∧
    findListBlocksInListItem (docRoot editor') position = Some [parent position] ∧
    ∀ k anyOffset, k ∈ rest →
      findListBlocksInListItem (docRoot editor') (mkPosition k anyOffset) = Some rest.
Proof.
  intros position HP Hrun Hin Hfresh Hitems.
  destruct (enter_set_attribute_conditions _ _ _ _ _ _ _ _ HP Hrun Hin)
    as ((_ & _ & _ & (items' & Hitems' & Hlast) & Hsame) & -> & _).
  fold position in Hitems', Hlast, Hsame |- *.
  rewrite Hitems in Hitems'. injection Hitems' as <-.
  apply last_Some in Hlast as [rest ->]. exists rest.
  destruct (findListBlocksInListItem_sorted _ _ _ Hitems) as (_ & Hnodup & _).
  apply NoDup_app in Hnodup as (_ & Hdisjoint & _).
  assert (Hnotin : parent position ∉ rest).
  { intros Hin'. apply (Hdisjoint _ Hin'), list_elem_of_here. }
  assert (Hfilter : List.filter (λ j, negb (Nat.eqb j (parent position)))
                      (rest ++ [parent position]) = rest).
  { rewrite List.filter_app. simpl. rewrite Nat.eqb_refl. simpl.
    rewrite app_nil_r. apply filter_all. intros j Hj.
    apply negb_true_iff, Nat.eqb_neq. by intros ->. }
  split_and!.
  - done.
  - intros ->. rewrite areRepresentingSameList_block in Hsame.
    destruct (parent position) as [|k] eqn:Hi; [done|]. simpl in Hsame.
    destruct (docRoot editor !! k) as [q|] eqn:Hq; [|done]. simpl in Hsame.
    injection Hsame as Hsame. apply bool_decide_eq_true in Hsame.
    assert (k ∈ [S k]) as Hk.
    { assert (HP' : docRoot editor !! parent position = Some P) by by rewrite Hi.
      apply (findListBlocksInListItem_elem _ _ _ _ k HP' Hitems).
      apply hasListItemId_true. by exists q. }
    apply list_elem_of_singleton in Hk. lia.
  - destruct position as [i off] eqn:Hpos. simpl in *.
    by apply (walker_after_write_self _ _ P).
  - intros k anyOffset Hk.
    replace (Some rest)
      with (Some (List.filter (λ j, negb (Nat.eqb j (parent position)))
                    (rest ++ [parent position]))) by (by rewrite Hfilter).
    apply (walker_after_write_other _ _ P); [done | done | by intros -> |].
    apply (walker_from_member _ _ _ _ _ Hitems).
    apply elem_of_app. by left.
Qed.

Lemma freshFor_itemWithEmptyLastBlock : freshFor "N" (docRoot itemWithEmptyLastBlock).
Proof.
  intros el Hel Hid. simpl in Hel. rewrite !elem_of_cons, elem_of_nil in Hel.
  destruct Hel as [-> | [-> | []]]; vm_compute in Hid; discriminate.
Defined.

Lemma enter_splits_item_witness :
  findListBlocksInListItem [listParagraph "A" 0 1; listParagraph "N" 0 0] (mkPosition 0 0)
  = Some [0].
Proof.
  destruct (enter_splits_item "N" itemWithEmptyLastBlock
              (mkEditor [listParagraph "A" 0 1; listParagraph "N" 0 0] (caretAt 1 0))
              (listParagraph "A" 0 0)
              [SetAttribute "listItemId" (AStr "N") 1; PreventDefault; Stop]
              [0; 1] "listItemId" (AStr "N") 1
              eq_refl eq_refl (list_elem_of_here _ _)
              freshFor_itemWithEmptyLastBlock eq_refl)
    as (rest & Hitems & _ & _ & Hrest).
  assert (rest = [0]) as ->.
  { destruct rest as [|a [|b rest]]; simpl in Hitems; [discriminate | | ].
    - by injection Hitems as <-.
    - injection Hitems as _ _ Hnil. by destruct rest. }
  apply (Hrest 0 0), list_elem_of_here.
Defined.

(** X9.  After the fresh-identity branch has fired with a token that no
    block carries, a second Enter at the same place executes the outdent
    command: the cursor block is now an empty item of its own. *)
Theorem enter_twice_outdents (uniqueId nextUniqueId : string) (editor editor' : Editor)
    (P : Element) (effects : list Effect)
    (key : string) (value : AttrValue) (item : NodeRef) :
  docRoot editor !! parent (getLastPosition (docSelection editor)) = Some P →
  getEnterHandlingCallback uniqueId editor = Some (editor', effects) →
  SetAttribute key value item ∈ effects →
  freshFor uniqueId (docRoot editor) →
  ∃ editor'',
    getEnterHandlingCallback nextUniqueId editor'
    = Some (editor'', [Execute "outdentList"; PreventDefault; Stop]).
Proof.
  intros HP Hrun Hin Hfresh.
  destruct (enter_set_attribute_conditions _ _ _ _ _ _ _ _ HP Hrun Hin)
    as ((Hcollapsed & Hempty & Hlist & _ & _) & -> & _).
  set (i := parent (getLastPosition (docSelection editor))) in *.
  eexists.
  apply (getEnterHandlingCallback_singleton nextUniqueId
           (writer_setAttribute "listItemId" (AStr uniqueId) i editor)
           (withAttribute "listItemId" (AStr uniqueId) P) i).
  - simpl. fold i. rewrite list_lookup_alter, decide_True, HP by done. done.
  - done.
  - done.
  - unfold isListBlock, hasAttribute, withAttribute. simpl.
    apply bool_decide_eq_true. rewrite lookup_insert_eq. by eexists.
  - simpl docSelection. destruct (getLastPosition (docSelection editor)) as [i' off] eqn:Hpos.
    simpl in i. subst i. by apply (walker_after_write_self _ _ P).
Qed.

Lemma enter_twice_outdents_witness :
  ∃ editor'',
    getEnterHandlingCallback "M"
      (mkEditor [listParagraph "A" 0 1; listParagraph "N" 0 0] (caretAt 1 0))
    = Some (editor'', [Execute "outdentList"; PreventDefault; Stop]).
Proof.
  apply (enter_twice_outdents "N" "M" itemWithEmptyLastBlock
           (mkEditor [listParagraph "A" 0 1; listParagraph "N" 0 0] (caretAt 1 0))
           (listParagraph "A" 0 0)
           [SetAttribute "listItemId" (AStr "N") 1; PreventDefault; Stop]
           "listItemId" (AStr "N") 1
           eq_refl eq_refl (list_elem_of_here _ _) freshFor_itemWithEmptyLastBlock).
Defined.

(** ** The length of a view list item *)

(** Induction over a view tree, with the property at hand for the items of
    every child. *)
Lemma ViewNode_nested_ind (P : ViewNode → Prop) :
  (∀ data, P (ViewText data)) →
  (∀ viewName children, Forall P children → P (ViewElement viewName children)) →
  ∀ element, P element.
Proof.
  intros Htext Helement. fix IH 1. intros [data|viewName children].
  - apply Htext.
  - apply Helement. induction children as [|child children IHchildren].
    + constructor.
    + constructor; [apply IH | exact IHchildren].
Qed.

Lemma ViewNode_items_ind (P : ViewNode → Prop) :
  (∀ data, P (ViewText data)) →
  (∀ viewName children,
     (∀ childName items, ViewElement childName items ∈ children → Forall P items) →
     P (ViewElement viewName children)) →
  ∀ element, P element.
Proof.
  intros Htext Helement element.
  cut (P element ∧ match element with
                   | ViewElement _ children => Forall P children
                   | ViewText _ => True
                   end); [by intros [? _]|].
  induction element as [data|viewName children IH] using ViewNode_nested_ind.
  - split; [apply Htext | done].
  - assert (Hchildren : Forall P children).
    { eapply Forall_impl; [exact IH|]. by intros child [? _]. }
    split; [|done]. apply Helement. intros childName items Hin.
    rewrite Forall_forall in IH. by destruct (IH _ Hin).
Qed.

Section ViewLoopFacts.
Variable lengthOf : ViewNode → option nat.

Lemma addItemLengths_shift (items : list ViewNode) (length : nat) :
  addItemLengths lengthOf items length
  = (λ added, length + added) <$> addItemLengths lengthOf items 0.
Proof.
  revert length. induction items as [|item more IH]; intros length; simpl.
  - f_equal. lia.
  - destruct (lengthOf item) as [itemLength|]; [|done].
    rewrite (IH (length + itemLength)), (IH itemLength).
    destruct (addItemLengths lengthOf more 0); simpl; [f_equal; lia | done].
Qed.

Lemma addChildLengths_shift (children : list ViewNode) (length : nat) :
  addChildLengths lengthOf children length
  = (λ added, length + added) <$> addChildLengths lengthOf children 0.
Proof.
  revert length. induction children as [|child rest IH]; intros length; simpl.
  - f_equal. lia.
  - destruct child as [data|childName items]; [apply IH|].
    destruct (isListName childName); [|apply IH].
    rewrite (addItemLengths_shift items length).
    destruct (addItemLengths lengthOf items 0) as [added|]; simpl; [|done].
    rewrite (IH (length + added)), (IH added).
    destruct (addChildLengths lengthOf rest 0); simpl; [f_equal; lia | done].
Qed.

Lemma addChildLengths_app (children1 children2 : list ViewNode) (length : nat) :
  addChildLengths lengthOf (children1 ++ children2) length
  = addChildLengths lengthOf children1 length ≫= addChildLengths lengthOf children2.
Proof.
  revert length. induction children1 as [|child rest IH]; intros length; simpl; [done|].
  destruct child as [data|childName items]; [apply IH|].
  destruct (isListName childName); [|apply IH].
  destruct (addItemLengths lengthOf items length); [apply IH | done].
Qed.

Lemma addChildLengths_lists_only (children : list ViewNode) (length : nat) :
  addChildLengths lengthOf (List.filter isListElement children) length
  = addChildLengths lengthOf children length.
Proof.
  revert length. induction children as [|child rest IH]; intros length; simpl; [done|].
  destruct child as [data|childName items]; simpl; [apply IH|].
  destruct (isListName childName) eqn:Hname; simpl; [|apply IH].
  rewrite Hname. destruct (addItemLengths lengthOf items length); [apply IH | done].
Qed.
End ViewLoopFacts.

Lemma addItemLengths_counts (items : list ViewNode) (length : nat) :
  Forall (λ item, getViewListItemLength item
                  = if listsHoldElements item
                    then Some (Datatypes.length (viewListItems item)) else None) items →
  addItemLengths getViewListItemLength items length
  = if forallb listsHoldElements items
    then Some (length + Datatypes.length (flat_map viewListItems items)) else None.
Proof.
  intros Hitems. revert length.
  induction Hitems as [|item more Hitem _ IH]; intros length; simpl.
  - f_equal. lia.
  - rewrite Hitem. destruct (listsHoldElements item); [|done]. simpl.
    rewrite IH. destruct (forallb listsHoldElements more); [|done].
    f_equal. rewrite length_app. simpl. lia.
Qed.

Lemma getViewListItemLength_count (element : ViewNode) :
  getViewListItemLength element
  = if listsHoldElements element
    then Some (length (viewListItems element)) else None.
Proof.
  induction element as [data|viewName children IH] using ViewNode_items_ind; [done|].
  simpl.
  cut (∀ length,
         addChildLengths getViewListItemLength children length
         = if forallb (λ child,
                         match child with
                         | ViewElement childName items =>
                             if isListName childName
                             then forallb listsHoldElements items else true
                         | ViewText _ => true
                         end) children
           then Some (length + Datatypes.length
                        (flat_map (λ child,
                                     match child with
                                     | ViewElement childName items =>
                                         if isListName childName
                                         then flat_map viewListItems items else []
                                     | ViewText _ => []
                                     end) children))
           else None).
  { intros Hloop. rewrite Hloop. by destruct (forallb _ children). }
  induction children as [|child rest IHrest]; intros length; simpl.
  - f_equal. lia.
  - assert (Hrest : ∀ childName items,
              ViewElement childName items ∈ rest →
              Forall (λ item, getViewListItemLength item
                              = if listsHoldElements item
                                then Some (Datatypes.length (viewListItems item))
                                else None) items).
    { intros childName items Hin. apply (IH childName items).
      by apply list_elem_of_further. }
    destruct child as [data|childName items]; [by apply IHrest|].
    destruct (isListName childName) eqn:Hname; [|by apply IHrest].
    rewrite (addItemLengths_counts items length)
      by (apply (IH childName items), list_elem_of_here).
    destruct (forallb listsHoldElements items); [|done]. simpl.
    rewrite (IHrest Hrest). destruct (forallb _ rest); [|done].
    f_equal. rewrite length_app. lia.
Qed.

(** X10.  [getViewListItemLength] returns a length exactly when every list
    it goes through holds elements only; the length is then the number
    of list items counted from the element itself down through all the
    nested lists, so it is at least 1. *)
Theorem getViewListItemLength_counts_nested_items (element : ViewNode) :
  getViewListItemLength element
  = (if listsHoldElements element
     then Some (length (viewListItems element)) else None) ∧
  (is_Some (getViewListItemLength element) ↔ listsHoldElements element = true) ∧
  (∀ n, getViewListItemLength element = Some n → 1 ≤ n).
Proof.
  rewrite getViewListItemLength_count. split_and!.
  - done.
  - destruct (listsHoldElements element); split; intros H;
      try done; try (by eexists); by destruct H.
  - intros n. destruct (listsHoldElements element); [|done].
    intros [= <-]. destruct element; simpl; lia.
Qed.

Lemma getViewListItemLength_counts_nested_items_witness :
  getViewListItemLength nestedViewItem = Some 5 ∧ 1 ≤ 5.
Proof.
  destruct (getViewListItemLength_counts_nested_items nestedViewItem)
    as (Hcount & _ & Hpositive).
  split; [rewrite Hcount; reflexivity|].
  apply Hpositive. reflexivity.
Defined.

(** X11.  Only the nested lists count: the length of an element does not
    depend on its name nor on its children that are not [ul] or [ol],
    whatever those hold. *)
Theorem getViewListItemLength_lists_only (viewName otherName : string)
    (children : list ViewNode) :
  getViewListItemLength (ViewElement viewName children)
  = getViewListItemLength (ViewElement otherName (List.filter isListElement children)).
Proof. simpl. by rewrite addChildLengths_lists_only. Qed.

(** X12.  Lengths add up over the children: an element holding the
    children of two elements has the sum of their lengths less one. *)
Theorem getViewListItemLength_children_app (viewName name1 name2 : string)
    (children1 children2 : list ViewNode) (length1 length2 : nat) :
  getViewListItemLength (ViewElement name1 children1) = Some length1 →
  getViewListItemLength (ViewElement name2 children2) = Some length2 →
  getViewListItemLength (ViewElement viewName (children1 ++ children2))
  = Some (length1 + length2 - 1).
Proof.
  simpl. intros H1 H2. rewrite addChildLengths_app, H1. simpl.
  rewrite addChildLengths_shift in H2 |- *.
  destruct (addChildLengths getViewListItemLength children2 0) as [added|]; [|done].
  simpl in *. injection H2 as <-. f_equal. lia.
Qed.

Lemma getViewListItemLength_children_app_witness :
  getViewListItemLength
    (ViewElement "li"
       ([ViewText "a"; ViewElement "ul" [ViewElement "li" []]]
        ++ [ViewElement "ol" [ViewElement "li" []; ViewElement "li" []]]))
  = Some (2 + 3 - 1).
Proof.
  apply (getViewListItemLength_children_app "li" "li" "li"
           [ViewText "a"; ViewElement "ul" [ViewElement "li" []]]
           [ViewElement "ol" [ViewElement "li" []; ViewElement "li" []]] 2 3);
    reflexivity.
Defined.

(** ** Schema extension *)

Lemma prefix_dollar (itemName : string) :
  String.prefix "$" itemName = true ↔ ∃ rest, itemName = String.append "$" rest.
Proof.
  destruct itemName as [|c rest].
  - split; [done | by intros [? ?]].
  - change (String.prefix "$" (String c rest))
      with (if Ascii.ascii_dec "$"%char c then String.prefix "" rest else false).
    destruct (Ascii.ascii_dec "$"%char c) as [<-|Hc].
    + split; [by exists rest | by destruct rest].
    + split; [done|]. intros [rest' [= -> _]]. done.
Qed.

Lemma getBlockDefinitions_elem (definitions : list SchemaDefinition)
    (definition : SchemaDefinition) :
  definition ∈ getBlockDefinitions definitions ↔
  definition ∈ definitions ∧ isBlock definition = true ∧
  ¬ ∃ rest, definitionName definition = String.append "$" rest.
Proof.
  unfold getBlockDefinitions.
  rewrite list_elem_of_In, List.filter_In, <- list_elem_of_In, andb_true_iff, negb_true_iff.
  rewrite <- prefix_dollar, not_true_iff_false. tauto.
Qed.

Lemma extendedItems_app (effects1 effects2 : list InitEffect) :
  extendedItems (effects1 ++ effects2) = extendedItems effects1 ++ extendedItems effects2.
Proof. apply omap_app. Qed.

Lemma registeredChildCommands_app (effects1 effects2 : list InitEffect) :
  registeredChildCommands (effects1 ++ effects2)
  = registeredChildCommands effects1 ++ registeredChildCommands effects2.
Proof. apply omap_app. Qed.

Lemma extendedItems_extends (definitions : list SchemaDefinition) :
  extendedItems
    (map (λ definition,
            SchemaExtend (definitionName definition) ["listType"; "listIndent"; "listItemId"])
         definitions)
  = map (λ definition,
           (definitionName definition, ["listType"; "listIndent"; "listItemId"]))
        definitions ∧
  registeredChildCommands
    (map (λ definition,
            SchemaExtend (definitionName definition) ["listType"; "listIndent"; "listItemId"])
         definitions) = [].
Proof.
  induction definitions as [|definition definitions [IH1 IH2]]; [done|].
  split; [simpl; f_equal; exact IH1 | exact IH2].
Qed.

Lemma getBlockDefinitions_split (before after : list SchemaDefinition)
    (definition : SchemaDefinition) :
  (isBlock definition = true →
   (¬ ∃ rest, definitionName definition = String.append "$" rest) →
   getBlockDefinitions (before ++ definition :: after)
   = getBlockDefinitions before ++ definition :: getBlockDefinitions after) ∧
  (isBlock definition = false ∨
   (∃ rest, definitionName definition = String.append "$" rest) →
   getBlockDefinitions (before ++ definition :: after)
   = getBlockDefinitions before ++ getBlockDefinitions after).
Proof.
  unfold getBlockDefinitions. rewrite List.filter_app. simpl. split.
  - intros -> Hname. rewrite <- prefix_dollar in Hname.
    apply not_true_is_false in Hname. by rewrite Hname.
  - intros [-> | Hname].
    + by rewrite andb_false_r.
    + apply prefix_dollar in Hname. by rewrite Hname.
Qed.

(** X13.  [afterInit] asks for one schema extension with the three list
    attributes for each schema definition that is a block and whose name
    does not start with [$], in the order of the schema, and for no other
    extension: a definition of the schema contributes its own name once
    if it is such a block and nothing otherwise.  After the extensions,
    and in this order, it registers [indentList] under [indent] and
    [outdentList] under [outdent], each once and only where that command
    exists; it does nothing else. *)
Theorem afterInit_extends_blocks (definitions : list SchemaDefinition)
    (hasCommand : string → bool) :
  extendedItems (afterInit definitions hasCommand)
  = map (λ definition,
           (definitionName definition, ["listType"; "listIndent"; "listItemId"]))
        (getBlockDefinitions definitions) ∧
  registeredChildCommands (afterInit definitions hasCommand)
  = (if hasCommand "indent" then [("indent", "indentList")] else [])
    ++ (if hasCommand "outdent" then [("outdent", "outdentList")] else []) ∧
  afterInit definitions hasCommand
  = map (λ extension, SchemaExtend extension.1 extension.2)
        (extendedItems (afterInit definitions hasCommand))
    ++ map (λ registration, RegisterChildCommand registration.1 registration.2)
         (registeredChildCommands (afterInit definitions hasCommand)) ∧
  getBlockDefinitions [] = [] ∧
  (∀ before definition after,
     definitions = before ++ definition :: after →
     (isBlock definition = true →
      (¬ ∃ rest, definitionName definition = String.append "$" rest) →
      getBlockDefinitions definitions
      = getBlockDefinitions before ++ definition :: getBlockDefinitions after) ∧
     (isBlock definition = false ∨
      (∃ rest, definitionName definition = String.append "$" rest) →
      getBlockDefinitions definitions
      = getBlockDefinitions before ++ getBlockDefinitions after)) ∧
  (∀ definition,
     definition ∈ getBlockDefinitions definitions ↔
     definition ∈ definitions ∧ isBlock definition = true ∧
     ¬ ∃ rest, definitionName definition = String.append "$" rest) ∧
  getBlockDefinitions definitions `sublist_of` definitions ∧
  getBlockDefinitions (getBlockDefinitions definitions) = getBlockDefinitions definitions.
Proof.
  assert (Hextended : extendedItems (afterInit definitions hasCommand)
            = map (λ definition,
                     (definitionName definition, ["listType"; "listIndent"; "listItemId"]))
                  (getBlockDefinitions definitions)).
  { unfold afterInit. rewrite !extendedItems_app.
    rewrite (proj1 (extendedItems_extends _)).
    destruct (hasCommand "indent"), (hasCommand "outdent"); simpl; by rewrite app_nil_r. }
  assert (Hregistered : registeredChildCommands (afterInit definitions hasCommand)
            = (if hasCommand "indent" then [("indent", "indentList")] else [])
              ++ (if hasCommand "outdent" then [("outdent", "outdentList")] else [])).
  { unfold afterInit. rewrite !registeredChildCommands_app.
    rewrite (proj2 (extendedItems_extends _)).
    by destruct (hasCommand "indent"), (hasCommand "outdent"). }
  split_and!.
  - exact Hextended.
  - exact Hregistered.
  - rewrite Hextended, Hregistered. unfold afterInit. f_equal.
    + rewrite <- list_fmap_compose. done.
    + by destruct (hasCommand "indent"), (hasCommand "outdent").
  - done.
  - intros before definition after ->. apply getBlockDefinitions_split.
  - apply getBlockDefinitions_elem.
  - unfold getBlockDefinitions. clear.
    induction definitions as [|definition definitions IH]; [constructor|]. simpl.
    destruct (_ && _); [by apply sublist_skip | by apply sublist_cons].
  - unfold getBlockDefinitions. clear.
    induction definitions as [|definition definitions IH]; [done|]. simpl.
    destruct (_ && _) eqn:Hkeep; [|done]. simpl. by rewrite Hkeep, IH.
Qed.

Lemma afterInit_extends_blocks_witness :
  getBlockDefinitions
    [mkSchemaDefinition "$block" true;
     mkSchemaDefinition "paragraph" true;
     mkSchemaDefinition "softBreak" false]
  = [mkSchemaDefinition "paragraph" true].
Proof.
  destruct (afterInit_extends_blocks
              [mkSchemaDefinition "$block" true;
               mkSchemaDefinition "paragraph" true;
               mkSchemaDefinition "softBreak" false] (λ _, false))
    as (_ & _ & _ & _ & Hsplit & _).
  destruct (Hsplit [mkSchemaDefinition "$block" true]
              (mkSchemaDefinition "paragraph" true)
              [mkSchemaDefinition "softBreak" false] eq_refl) as (Hkept & _).
  rewrite Hkept; [reflexivity | reflexivity |].
  intros [rest Hrest]. discriminate Hrest.
Defined.
